(** * The condensed memory block of the agent-memory notebooks

  A shallow embedding of [CondensedMemoryBlock] (the one class with logic of
  its own in the notebooks): its [_aget] and [_aput] methods, the Python
  values they inspect, and the properties of the buffer they maintain. *)

From Stdlib Require Import List String Ascii ZArith Lia Bool DecimalString.
Import ListNotations.

Set Warnings "-register-all".

Local Open Scope string_scope.
Local Open Scope list_scope.
Local Open Scope Z_scope.

(** ** Python values, exceptions and the operations [_aput] applies to them *)

Module Py.

(** The values found in [ChatMessage.additional_kwargs] (typed [Dict[str, Any]]):
    JSON-like data.  A dict is an association list in insertion order, as
    Python dicts iterate and print in that order.  A float is kept as its
    printed form, the only thing the block ever does with it. *)
Inductive pyval : Type :=
| PyNone
| PyBool (b : bool)
| PyInt (z : Z)
| PyFloat (printed : string)
| PyStr (s : string)
| PyList (l : list pyval)
| PyDict (d : list (string * pyval)).

Definition dict : Type := list (string * pyval).

(** The exceptions the block can meet: the three the modelled code and its
    sample tokenizer and printer raise, and any other class by its name. *)
Inductive pyerr : Type :=
| KeyError (key : string)
| TypeError
| ValueError
| OtherError (class_name : string).

(** Result of an expression that may raise. *)
Inductive res (A : Type) : Type :=
| Ok (a : A)
| Err (e : pyerr).
Arguments Ok {A} a.
Arguments Err {A} e.

Definition res_bind {A B} (r : res A) (k : A -> res B) : res B :=
  match r with
  | Ok a => k a
  | Err e => Err e
  end.

Notation "x <- r ;; k" := (res_bind r (fun x => k))
  (at level 61, r at next level, right associativity).

(** A comprehension [[f x for x in l]]: left to right, the first exception
    wins. *)
Fixpoint mapM {A B} (f : A -> res B) (l : list A) : res (list B) :=
  match l with
  | [] => Ok []
  | x :: rest => y <- f x ;; ys <- mapM f rest ;; Ok (y :: ys)
  end.

(** [d.get(k)] on an association list with unique keys. *)
Fixpoint dict_get (d : dict) (k : string) : option pyval :=
  match d with
  | [] => None
  | (k', v) :: rest => if String.eqb k' k then Some v else dict_get rest k
  end.

(** [d[k] = v]: an existing key keeps its position, a new one goes last. *)
Fixpoint dict_set (d : dict) (k : string) (v : pyval) : dict :=
  match d with
  | [] => [(k, v)]
  | (k', v') :: rest =>
      if String.eqb k' k then (k', v) :: rest else (k', v') :: dict_set rest k v
  end.

Definition dict_keys (d : dict) : list string := map fst d.

(** [v[k]] for a string [k]: a dict looks the key up, everything else is
    not subscriptable by a string. *)
Definition getitem (v : pyval) (k : string) : res pyval :=
  match v with
  | PyDict d =>
      match dict_get d k with
      | Some x => Ok x
      | None => Err (KeyError k)
      end
  | _ => Err TypeError
  end.

Fixpoint chars (s : string) : list pyval :=
  match s with
  | EmptyString => []
  | String c rest => PyStr (String c EmptyString) :: chars rest
  end.

(** [for x in v]: a list yields its elements, a dict its keys, a string its
    characters; the other values are not iterable. *)
Definition iter (v : pyval) : res (list pyval) :=
  match v with
  | PyList l => Ok l
  | PyDict d => Ok (map PyStr (dict_keys d))
  | PyStr s => Ok (chars s)
  | _ => Err TypeError
  end.

(** *** A printer for the worked examples *)

Definition nl : string := String (ascii_of_nat 10) EmptyString.
Definition dquote : ascii := ascii_of_nat 34.
Definition squote : ascii := ascii_of_nat 39.
Definition backslash : ascii := ascii_of_nat 92.

(** Most digits an [int] may have when it is turned into text; longer ones
    raise [ValueError] (the interpreter's default limit). *)
Definition int_max_str_digits : nat := 4300.

Definition sample_repr_int (z : Z) : res string :=
  let digits := NilZero.string_of_int (Z.to_int (Z.abs z)) in
  if Nat.ltb int_max_str_digits (String.length digits)
  then Err ValueError
  else Ok (NilZero.string_of_int (Z.to_int z)).

Fixpoint contains (c : ascii) (s : string) : bool :=
  match s with
  | EmptyString => false
  | String c' rest => Ascii.eqb c c' || contains c rest
  end.

Definition hex_digit (n : nat) : ascii :=
  nth n ["0"; "1"; "2"; "3"; "4"; "5"; "6"; "7"; "8"; "9";
         "a"; "b"; "c"; "d"; "e"; "f"]%char "0"%char.

Definition sample_repr_char (quote c : ascii) : string :=
  let n := nat_of_ascii c in
  if Ascii.eqb c backslash then String backslash (String backslash EmptyString)
  else if Ascii.eqb c quote then String backslash (String quote EmptyString)
  else if Nat.eqb n 10 then String backslash "n"
  else if Nat.eqb n 13 then String backslash "r"
  else if Nat.eqb n 9 then String backslash "t"
  else if Nat.ltb n 32 || Nat.eqb n 127 then
    String backslash
      (String "x" (String (hex_digit (Nat.div n 16))
                     (String (hex_digit (Nat.modulo n 16)) EmptyString)))
  else String c EmptyString.

Fixpoint sample_repr_chars (quote : ascii) (s : string) : string :=
  match s with
  | EmptyString => EmptyString
  | String c rest => sample_repr_char quote c ++ sample_repr_chars quote rest
  end.

Definition sample_repr_str (s : string) : string :=
  let quote := if contains squote s && negb (contains dquote s)
               then dquote else squote in
  String quote (sample_repr_chars quote s ++ String quote EmptyString).

(** A stand-in for Python's [str] on a value, for the worked examples only:
    it prints as Python does the values the examples use (ASCII text, nesting
    a few levels deep), and refuses an over-long [int] as Python does.  The
    block itself is modelled over any printer (see [py_str] below), and no
    theorem depends on this one. *)
Fixpoint sample_str (v : pyval) : res string :=
  match v with
  | PyNone => Ok "None"
  | PyBool true => Ok "True"
  | PyBool false => Ok "False"
  | PyInt z => sample_repr_int z
  | PyFloat printed => Ok printed
  | PyStr s => Ok (sample_repr_str s)
  | PyList l =>
      items <- (fix print_items (l : list pyval) : res (list string) :=
                  match l with
                  | [] => Ok []
                  | x :: rest =>
                      s <- sample_str x ;;
                      ss <- print_items rest ;;
                      Ok (s :: ss)
                  end) l ;;
      Ok ("[" ++ String.concat ", " items ++ "]")%string
  | PyDict d =>
      items <- (fix print_items (d : list (string * pyval)) : res (list string) :=
                  match d with
                  | [] => Ok []
                  | (k, x) :: rest =>
                      s <- sample_str x ;;
                      ss <- print_items rest ;;
                      Ok ((sample_repr_str k ++ ": " ++ s)%string :: ss)
                  end) d ;;
      Ok ("{" ++ String.concat ", " items ++ "}")%string
  end.

End Py.

Import Py.

(** ** Chat messages *)

(** Modelled from the spec: the [ChatMessage] type of the agent framework,
    which the notebook imports; a role, an ordered sequence of content
    segments of which only the text segments carry a [text], and a mapping of
    auxiliary attributes. *)
Inductive MessageRole : Type := USER | ASSISTANT | SYSTEM | TOOL.

Inductive ContentBlock : Type :=
| TextBlock (text : string)
| OtherBlock (kind : string).

Record ChatMessage : Type := mkChatMessage {
  role : MessageRole;
  blocks : list ContentBlock;
  additional_kwargs : Py.dict
}.

(** ** The tokenizer *)

(** The [tokenizer] field: anything with an [encode] from text to token ids.
    [encode] may raise: the tokenizer the class configures refuses text that
    holds one of its special tokens. *)
Record Encoding : Type := mkEncoding {
  encode : string -> res (list nat)
}.

Definition is_space (c : ascii) : bool :=
  let n := nat_of_ascii c in
  Nat.eqb n 32 || Nat.eqb n 9 || Nat.eqb n 10 || Nat.eqb n 13.

(** Words of a text, split at white space; [cur] is the word being read. *)
Fixpoint split_words (cur : string) (s : string) : list string :=
  match s with
  | EmptyString => if String.eqb cur "" then [] else [cur]
  | String c rest =>
      if is_space c
      then (if String.eqb cur "" then split_words "" rest
            else cur :: split_words "" rest)
      else split_words (cur ++ String c EmptyString) rest
  end.

(** A deterministic stand-in for the byte-pair tokenizer: one token per
    white-space separated word (its id is the word's length); it never
    raises. *)
Definition word_tokenizer : Encoding :=
  {| encode := fun s => Ok (map String.length (split_words "" s)) |}.

(** A tokenizer with other ids and the same counts as [word_tokenizer]. *)
Definition blind_tokenizer : Encoding :=
  {| encode := fun s => Ok (map (fun _ => 0%nat) (split_words "" s)) |}.

(** [sub] occurs in [s]. *)
Fixpoint occurs (sub s : string) : bool :=
  String.prefix sub s ||
  match s with
  | EmptyString => false
  | String _ rest => occurs sub rest
  end.

Definition endoftext : string := "<|endoftext|>".

(** A stand-in that, like the configured tokenizer with its default
    arguments, raises [ValueError] on text that holds a special token. *)
Definition strict_tokenizer : Encoding :=
  {| encode := fun s =>
       if occurs endoftext s then Err ValueError
       else Ok (map String.length (split_words "" s)) |}.

(** ** The memory block *)

Record CondensedMemoryBlock : Type := mkBlock {
  current_memory : list string;
  token_limit : Z;
  tokenizer : Encoding
}.

Definition with_memory (self : CondensedMemoryBlock) (mem : list string)
  : CondensedMemoryBlock :=
  {| current_memory := mem;
     token_limit := token_limit self;
     tokenizer := tokenizer self |}.

(** How a call ends: it returns, it raises, or the model ran out of steps
    before the call's loop ended. *)
Inductive outcome (A : Type) : Type :=
| Done (a : A)
| Raised (e : Py.pyerr)
| OutOfFuel.
Arguments Done {A} a.
Arguments Raised {A} e.
Arguments OutOfFuel {A}.

(** A method body: it reads and updates [self] and ends in an [outcome]. *)
Definition M (A : Type) : Type := CondensedMemoryBlock -> outcome A * CondensedMemoryBlock.

Definition ret {A} (a : A) : M A := fun self => (Done a, self).

Definition bind {A B} (m : M A) (k : A -> M B) : M B :=
  fun self =>
    match m self with
    | (Done a, self') => k a self'
    | (Raised e, self') => (Raised e, self')
    | (OutOfFuel, self') => (OutOfFuel, self')
    end.

Notation "x <-- m ;; k" := (bind m (fun x => k))
  (at level 61, m at next level, right associativity).
Notation "m ;;; k" := (bind m (fun _ => k))
  (at level 61, right associativity).

Definition lift {A} (r : Py.res A) : M A :=
  fun self =>
    match r with
    | Py.Ok a => (Done a, self)
    | Py.Err e => (Raised e, self)
    end.

Definition get_memory : M (list string) := fun self => (Done (current_memory self), self).
Definition set_memory (mem : list string) : M unit := fun self => (Done tt, with_memory self mem).

(** [_aget]: the entries joined by newline; [messages] and the keyword
    arguments are not looked at. *)
Definition _aget (messages : option (list ChatMessage)) : M string :=
  mem <-- get_memory ;;
  ret (String.concat Py.nl mem).

(** The text of the [TextBlock]s of a message, in order. *)
Fixpoint block_texts (bs : list ContentBlock) : list string :=
  match bs with
  | [] => []
  | TextBlock t :: rest => t :: block_texts rest
  | OtherBlock _ :: rest => block_texts rest
  end.

(** The reduced record of one tool call.  The dict display evaluates its
    values in order, so ["function"] is looked up twice. *)
Definition reduce_tool_call (tool_call : Py.pyval) : Py.res Py.pyval :=
  (f1 <- Py.getitem tool_call "function" ;;
   name <- Py.getitem f1 "name" ;;
   f2 <- Py.getitem tool_call "function" ;;
   args <- Py.getitem f2 "arguments" ;;
   Py.Ok (Py.PyDict [("name", name); ("args", args)]))%string.

(** One round of the loop over [additional_kwargs.items()]. *)
Definition kwargs_step (kwargs : Py.dict) (item : string * Py.pyval) : Py.res Py.dict :=
  let (key, val) := item in
  if String.eqb key "tool_calls" then
    (tool_calls <- Py.iter val ;;
     val' <- Py.mapM reduce_tool_call tool_calls ;;
     Py.Ok (Py.dict_set kwargs key (Py.PyList val')))
  else if negb (String.eqb key "session_id") && negb (String.eqb key "tool_call_id") then
    Py.Ok (Py.dict_set kwargs key val)
  else Py.Ok kwargs.

Fixpoint kwargs_loop (kwargs : Py.dict) (items : list (string * Py.pyval)) : Py.res Py.dict :=
  match items with
  | [] => Py.Ok kwargs
  | item :: rest => (kwargs' <- kwargs_step kwargs item ;; kwargs_loop kwargs' rest)
  end.

(** The filtered attribute mapping of a message: [kwargs = {}] and the loop. *)
Definition filtered_kwargs (message : ChatMessage) : Py.res Py.dict :=
  kwargs_loop [] (additional_kwargs message).

(** Truth value of a string and of a dict in a condition. *)
Definition str_truthy (s : string) : bool := negb (String.eqb s "").
Definition dict_truthy (d : Py.dict) : bool :=
  match d with [] => false | _ :: _ => true end.

(** [sum(...)] of a generator of integers: from 0, left to right. *)
Definition py_sum (l : list Z) : Z := fold_left Z.add l 0.

(** [len(self.tokenizer.encode(message))] *)
Definition token_count (tok : Encoding) (entry : string) : res Z :=
  tokens <- encode tok entry ;; Ok (Z.of_nat (List.length tokens)).

(** [sum(len(tok.encode(message)) for message in mem)]: the entries are
    encoded in order and the first one the tokenizer refuses raises. *)
Definition sum_tokens (tok : Encoding) (mem : list string) : res Z :=
  counts <- mapM (token_count tok) mem ;; Ok (py_sum counts).

Definition message_length (self : CondensedMemoryBlock) : res Z :=
  sum_tokens (tokenizer self) (current_memory self).

(** The [while] loop; each unit of [fuel] pays for one round. *)
Fixpoint trim_loop (fuel : nat) (length_now : Z) : M unit :=
  fun self =>
    if length_now >? token_limit self then
      match fuel with
      | O => (OutOfFuel, self)
      | S fuel' =>
          let self' := with_memory self (skipn 1 (current_memory self)) in
          match message_length self' with
          | Ok length_next => trim_loop fuel' length_next self'
          | Err e => (Raised e, self')
          end
      end
    else (Done tt, self).

(** Lines 122 to 132: the sum, then the loop. *)
Definition trim : nat -> M unit :=
  fun fuel self =>
    match message_length self with
    | Ok length_now => trim_loop fuel length_now self
    | Err e => (Raised e, self)
    end.

(** ** Helpers for the statements *)

Definition outcome_of_error (o : option pyerr) : outcome unit :=
  match o with
  | None => Done tt
  | Some e => Raised e
  end.

(** The tokenizer encodes every entry of [mem]. *)
Definition encodable (tok : Encoding) (mem : list string) : Prop :=
  Forall (fun entry => exists tokens, encode tok entry = Ok tokens) mem.

(** Token count of an entry the tokenizer encodes (0 for one it refuses). *)
Definition count (tok : Encoding) (entry : string) : Z :=
  match token_count tok entry with
  | Ok n => n
  | Err _ => 0
  end.

(** Token total of a list of entries the tokenizer encodes. *)
Definition total (tok : Encoding) (mem : list string) : Z :=
  py_sum (map (count tok) mem).

Arguments total : simpl never.
Arguments message_length : simpl never.
Arguments sum_tokens : simpl never.

(** The longest suffix of [mem] whose token total is within [limit]. *)
Fixpoint trimmed (tok : Encoding) (limit : Z) (mem : list string) : list string :=
  match mem with
  | [] => []
  | _ :: rest => if total tok mem >? limit then trimmed tok limit rest else mem
  end.

(** The keys the filter keeps. *)
Definition kept_key (key : string) : bool :=
  negb (String.eqb key "session_id") && negb (String.eqb key "tool_call_id").

(** A tool-call record as the agent framework attaches it: a mapping with a
    ["function"] entry that is a mapping with ["name"] and ["arguments"]. *)
Definition has_key (v : pyval) (k : string) : bool :=
  match v with
  | PyDict d => match dict_get d k with Some _ => true | None => false end
  | _ => false
  end.

Definition well_formed_tool_call (tool_call : pyval) : bool :=
  match getitem tool_call "function" with
  | Ok fn => has_key fn "name" && has_key fn "arguments"
  | Err _ => false
  end.

(** Attributes whose ["tool_calls"] entry, if any, is a list of such records. *)
Definition well_formed_item (item : string * pyval) : bool :=
  if String.eqb (fst item) "tool_calls" then
    match snd item with
    | PyList records => forallb well_formed_tool_call records
    | _ => false
    end
  else true.

Definition well_formed_kwargs (d : dict) : bool := forallb well_formed_item d.

(** ** Sample data *)

Definition text_message (r : MessageRole) (s : string) : ChatMessage :=
  mkChatMessage r [TextBlock s] [].

Definition empty_message : ChatMessage := mkChatMessage ASSISTANT [] [].

Definition conversation : list ChatMessage :=
  [text_message USER "Hello! My name is Megan";
   text_message ASSISTANT "Hello! How can I help you?";
   text_message USER "What is the capital of France?";
   text_message ASSISTANT "The capital of France is Paris"].

Definition five_turns : list ChatMessage :=
  [text_message USER "one two three";
   text_message ASSISTANT "four five";
   text_message USER "six";
   text_message ASSISTANT "seven eight";
   text_message USER "nine"].

Definition two_more_turns : list ChatMessage :=
  [text_message ASSISTANT "ten eleven";
   text_message USER "twelve"].

Definition tool_call_record (name args : string) : pyval :=
  PyDict [("id", PyStr "call_1");
          ("function", PyDict [("arguments", PyStr args); ("name", PyStr name)]);
          ("type", PyStr "function")].

Definition dq : string := String dquote EmptyString.

(** The JSON text [{"a":3,"b":4}]. *)
Definition multiply_args : string :=
  ("{" ++ dq ++ "a" ++ dq ++ ":3," ++ dq ++ "b" ++ dq ++ ":4}")%string.

Definition tool_message : ChatMessage :=
  mkChatMessage ASSISTANT [OtherBlock "image"]
    [("tool_calls", PyList [tool_call_record "multiply" multiply_args]);
     ("session_id", PyStr "x");
     ("tool_call_id", PyStr "y")].

(** A message with well-formed tool calls whose text holds a special token. *)
Definition special_token_message : ChatMessage :=
  mkChatMessage ASSISTANT [TextBlock endoftext]
    [("tool_calls", PyList [tool_call_record "multiply" multiply_args])].

(** A message with an attribute that has too many digits to print. *)
Definition huge_int_message : ChatMessage :=
  mkChatMessage TOOL [TextBlock "big"] [("result", PyInt (10 ^ 4300))].

(** A record without its ["function"] entry, and a message that carries it
    after a well-formed one. *)
Definition broken_record : pyval := PyDict [("id", PyStr "call_2")].

Definition broken_message : ChatMessage :=
  mkChatMessage ASSISTANT [TextBlock "calling"]
    [("note", PyStr "n");
     ("tool_calls", PyList [tool_call_record "add" "{}"; broken_record]);
     ("session_id", PyStr "x")].

(** A message whose tool-calls attribute is one record, not a list. *)
Definition single_record_message : ChatMessage :=
  mkChatMessage ASSISTANT [] [("tool_calls", tool_call_record "add" "{}")].


Definition roomy_block : CondensedMemoryBlock := mkBlock [] 60000 word_tokenizer.
Definition tight_block : CondensedMemoryBlock := mkBlock [] 3 word_tokenizer.
Definition zero_block : CondensedMemoryBlock := mkBlock [] 0 word_tokenizer.
Definition strict_block : CondensedMemoryBlock := mkBlock [] 60000 strict_tokenizer.

(** ** [_aput], given Python's [str] on values *)

Section Block.

(** Python's [str] on a value, which the f-string of line 118 applies to the
    filtered mapping: a builtin of the interpreter, taken as given.  It may
    raise (an [int] with too many digits, a value nested too deep). *)
Variable py_str : pyval -> res string.

Set Default Proof Using "Type".

(** [str(d)] of a dict, as an f-string renders it. *)
Definition str_of_dict (d : dict) : res string := py_str (PyDict d).

(** The string built for one message (lines 99 to 118). *)
Definition memory_str (message : ChatMessage) : res string :=
  let text_contents := String.concat nl (block_texts (blocks message)) in
  let memory_str := if str_truthy text_contents then text_contents else "" in
  (kwargs <- filtered_kwargs message ;;
   annotation <- (if dict_truthy kwargs
                  then (rendered <- str_of_dict kwargs ;;
                        Ok (nl ++ "(" ++ rendered ++ ")"))
                  else Ok "") ;;
   Ok (memory_str ++ annotation))%string.

(** One round of the loop over [messages]: build the string, append it. *)
Definition put_message (message : ChatMessage) : M unit :=
  s <-- lift (memory_str message) ;;
  mem <-- get_memory ;;
  set_memory (mem ++ [s]).

Fixpoint put_messages (messages : list ChatMessage) : M unit :=
  match messages with
  | [] => ret tt
  | message :: rest => put_message message ;;; put_messages rest
  end.

(** [_aput]: append one string per message, then trim from the front. *)
Definition _aput (fuel : nat) (messages : list ChatMessage) : M unit :=
  put_messages messages ;;; trim fuel.

(** *** Runs of several calls *)

(** The block after each of a sequence of [_aput] calls, with how the call
    ended.  A caller may go on after a call that raised, so the run does. *)
Fixpoint aput_trace (fuel : nat) (calls : list (list ChatMessage))
    (self : CondensedMemoryBlock) : list (outcome unit * CondensedMemoryBlock) :=
  match calls with
  | [] => []
  | messages :: rest =>
      let r := _aput fuel messages self in
      r :: aput_trace fuel rest (snd r)
  end.

(** The block after the whole sequence. *)
Fixpoint aput_all (fuel : nat) (calls : list (list ChatMessage))
    (self : CondensedMemoryBlock) : CondensedMemoryBlock :=
  match calls with
  | [] => self
  | messages :: rest => aput_all fuel rest (snd (_aput fuel messages self))
  end.

(** *** What the loop over the messages computes *)

(** The strings the loop over [messages] appends before it stops: one per
    message, up to the first message that raises. *)
Fixpoint appended (messages : list ChatMessage) : list string :=
  match messages with
  | [] => []
  | message :: rest =>
      match memory_str message with
      | Ok s => s :: appended rest
      | Err _ => []
      end
  end.

Fixpoint first_error (messages : list ChatMessage) : option pyerr :=
  match messages with
  | [] => None
  | message :: rest =>
      match memory_str message with
      | Ok _ => first_error rest
      | Err e => Some e
      end
  end.

(** The entry the spec describes for a message with the text segments
    [texts] and the filtered attributes [kwargs], printed as [rendered]: the
    texts joined by newline, then, when the mapping is not empty, a newline
    and the mapping's printed form in parentheses. *)
Definition spec_entry (texts : list string) (kwargs : dict) (rendered : string) : string :=
  (String.concat nl texts ++
   match kwargs with
   | [] => ""
   | _ :: _ => nl ++ "(" ++ rendered ++ ")"
   end)%string.

(** *** Lemmas on sums and on the record *)

Lemma with_memory_same self : with_memory self (current_memory self) = self.
Proof. destruct self; reflexivity. Qed.

Lemma fold_left_add_shift (l : list Z) (a : Z) :
  fold_left Z.add l a = a + fold_left Z.add l 0.
Proof.
  revert a; induction l as [|x l IH]; intros a; simpl.
  - lia.
  - rewrite (IH (a + x)), (IH x). lia.
Qed.

Lemma py_sum_cons (x : Z) (l : list Z) : py_sum (x :: l) = x + py_sum l.
Proof. unfold py_sum; simpl. apply fold_left_add_shift. Qed.

Lemma total_nil tok : total tok [] = 0.
Proof. reflexivity. Qed.

Lemma total_cons tok e mem : total tok (e :: mem) = count tok e + total tok mem.
Proof. unfold total; simpl. apply py_sum_cons. Qed.

Lemma count_nonneg tok e : 0 <= count tok e.
Proof.
  unfold count, token_count. destruct (encode tok e); simpl; lia.
Qed.

Lemma total_nonneg tok mem : 0 <= total tok mem.
Proof.
  induction mem as [|e mem IH].
  - rewrite total_nil; lia.
  - rewrite total_cons. pose proof (count_nonneg tok e). lia.
Qed.

Lemma total_app tok l1 l2 : total tok (l1 ++ l2) = total tok l1 + total tok l2.
Proof.
  induction l1 as [|e l1 IH]; simpl.
  - reflexivity.
  - rewrite !total_cons, IH. lia.
Qed.

Lemma sum_tokens_nil tok : sum_tokens tok [] = Ok 0.
Proof. reflexivity. Qed.

Lemma sum_tokens_cons tok e mem :
  sum_tokens tok (e :: mem) =
  (n <- token_count tok e ;; rest <- sum_tokens tok mem ;; Ok (n + rest)).
Proof.
  unfold sum_tokens. simpl.
  destruct (token_count tok e) as [n|]; simpl; [|reflexivity].
  destruct (mapM (token_count tok) mem) as [counts|]; simpl; [|reflexivity].
  rewrite py_sum_cons. reflexivity.
Qed.

Lemma token_count_count tok e n : token_count tok e = Ok n -> count tok e = n.
Proof. unfold count. intros ->. reflexivity. Qed.

Lemma token_count_encodable tok e :
  (exists tokens, encode tok e = Ok tokens) <-> (exists n, token_count tok e = Ok n).
Proof.
  unfold token_count. split.
  - intros [tokens ->]. simpl. eauto.
  - intros [n H]. destruct (encode tok e) as [tokens|]; [eauto | discriminate].
Qed.

(** The sum is defined exactly on the lists the tokenizer encodes, and is
    then their total. *)
Lemma sum_tokens_ok tok mem n :
  sum_tokens tok mem = Ok n <-> encodable tok mem /\ n = total tok mem.
Proof.
  unfold encodable. revert n. induction mem as [|e mem IH]; intros n.
  - rewrite sum_tokens_nil, total_nil. split.
    + intros H. injection H as <-. split; [constructor | reflexivity].
    + intros [_ ->]. reflexivity.
  - rewrite sum_tokens_cons, total_cons. split.
    + destruct (token_count tok e) as [c|] eqn:Hc; simpl; [|discriminate].
      destruct (sum_tokens tok mem) as [r|] eqn:Hr; simpl; [|discriminate].
      intros H. injection H as <-.
      destruct (proj1 (IH r) eq_refl) as [Henc ->].
      split.
      * constructor; [apply token_count_encodable; eauto | exact Henc].
      * rewrite (token_count_count _ _ _ Hc). reflexivity.
    + intros [Henc ->]. inversion Henc as [|? ? He Hmem]; subst.
      apply token_count_encodable in He. destruct He as [c Hc].
      rewrite Hc, (token_count_count _ _ _ Hc). simpl.
      rewrite (proj2 (IH (total tok mem))) by auto. reflexivity.
Qed.

Lemma sum_tokens_encodable tok mem :
  encodable tok mem -> sum_tokens tok mem = Ok (total tok mem).
Proof. intros H. apply sum_tokens_ok. auto. Qed.

Lemma encodable_skipn tok k mem : encodable tok mem -> encodable tok (skipn k mem).
Proof.
  unfold encodable. intros H. rewrite <- (firstn_skipn k mem) in H.
  apply Forall_app in H. apply H.
Qed.

Lemma message_length_sum self :
  message_length self = sum_tokens (tokenizer self) (current_memory self).
Proof. reflexivity. Qed.

(** *** The loop over the messages *)

Lemma put_message_ok message s self :
  memory_str message = Ok s ->
  put_message message self = (Done tt, with_memory self (current_memory self ++ [s])).
Proof. intros H. unfold put_message, bind, lift. rewrite H. reflexivity. Qed.

Lemma put_message_err message e self :
  memory_str message = Err e ->
  put_message message self = (Raised e, self).
Proof. intros H. unfold put_message, bind, lift. rewrite H. reflexivity. Qed.

Lemma put_messages_spec messages self :
  put_messages messages self =
  (outcome_of_error (first_error messages),
   with_memory self (current_memory self ++ appended messages)).
Proof.
  revert self; induction messages as [|m rest IH]; intros self; simpl.
  - rewrite app_nil_r, with_memory_same. reflexivity.
  - unfold bind. destruct (memory_str m) as [s|e] eqn:Hm.
    + rewrite (put_message_ok _ _ _ Hm), IH. simpl.
      rewrite <- app_assoc. reflexivity.
    + rewrite (put_message_err _ _ _ Hm), app_nil_r, with_memory_same.
      reflexivity.
Qed.

Lemma appended_length messages : (List.length (appended messages) <= List.length messages)%nat.
Proof.
  induction messages as [|m rest IH]; simpl; [lia|].
  destruct (memory_str m); simpl; lia.
Qed.

Lemma first_error_app ms1 ms2 :
  first_error ms1 = None -> first_error (ms1 ++ ms2) = first_error ms2.
Proof.
  induction ms1 as [|m ms1 IH]; simpl; [reflexivity|].
  destruct (memory_str m); [exact IH | discriminate].
Qed.

Lemma first_error_app_none ms1 ms2 :
  first_error (ms1 ++ ms2) = None -> first_error ms1 = None /\ first_error ms2 = None.
Proof.
  induction ms1 as [|m ms1 IH]; simpl; [auto|].
  destruct (memory_str m); [exact IH | discriminate].
Qed.

Lemma appended_app ms1 ms2 :
  first_error ms1 = None -> appended (ms1 ++ ms2) = appended ms1 ++ appended ms2.
Proof.
  induction ms1 as [|m ms1 IH]; simpl; [reflexivity|].
  destruct (memory_str m); [|discriminate].
  intros H. rewrite (IH H). reflexivity.
Qed.

Lemma appended_all messages :
  first_error messages = None ->
  Forall2 (fun message entry => memory_str message = Ok entry) messages (appended messages).
Proof.
  induction messages as [|m rest IH]; simpl; [constructor|].
  destruct (memory_str m) as [s|] eqn:Hm; [|discriminate].
  intros H. constructor; [exact Hm | exact (IH H)].
Qed.

(** *** The longest suffix within the limit *)

Lemma trimmed_within tok limit mem :
  0 <= limit -> total tok (trimmed tok limit mem) <= limit.
Proof.
  intros Hl. induction mem as [|e mem IH].
  - exact Hl.
  - simpl. destruct (Z.gtb_spec (total tok (e :: mem)) limit) as [E|E]; [exact IH|].
    lia.
Qed.

Lemma trimmed_fits tok limit mem :
  total tok mem <= limit -> trimmed tok limit mem = mem.
Proof.
  intros H. destruct mem as [|e mem]; [reflexivity|]. simpl.
  destruct (Z.gtb_spec (total tok (e :: mem)) limit) as [E|E]; [|reflexivity].
  lia.
Qed.

Lemma trimmed_length tok limit mem :
  (List.length (trimmed tok limit mem) <= List.length mem)%nat.
Proof.
  induction mem as [|e mem IH]; simpl; [lia|].
  destruct (total tok (e :: mem) >? limit); simpl; lia.
Qed.

Lemma trimmed_minimal tok limit mem :
  exists k,
    (k <= List.length mem)%nat /\
    trimmed tok limit mem = skipn k mem /\
    forall k', (k' < k)%nat -> total tok (skipn k' mem) > limit.
Proof.
  induction mem as [|e mem [k [Hlen [Hk Hmin]]]].
  - exists 0%nat. split; [simpl; lia|]. split; [reflexivity | intros k' Hk'; lia].
  - simpl. destruct (Z.gtb_spec (total tok (e :: mem)) limit) as [E|E].
    + exists (S k). split; [lia|]. split; [exact Hk|].
      intros [|k'] Hk'; simpl; [lia | apply Hmin; lia].
    + exists 0%nat. split; [lia|]. split; [reflexivity | intros k' Hk'; lia].
Qed.

Lemma trimmed_last_over tok limit older e :
  count tok e > limit -> trimmed tok limit (older ++ [e]) = [].
Proof.
  intros H. induction older as [|x older IH]; simpl.
  - destruct (Z.gtb_spec (total tok [e]) limit) as [E|E]; [reflexivity|].
    rewrite total_cons, total_nil in E. lia.
  - destruct (Z.gtb_spec (total tok (x :: older ++ [e])) limit) as [E|E]; [exact IH|].
    rewrite total_cons, total_app, total_cons, total_nil in E.
    pose proof (count_nonneg tok x). pose proof (total_nonneg tok older). lia.
Qed.

Lemma trimmed_last_kept tok limit older e :
  count tok e <= limit ->
  exists rest, trimmed tok limit (older ++ [e]) = (rest ++ [e])%list.
Proof.
  intros H. induction older as [|x older IH]; simpl.
  - destruct (Z.gtb_spec (total tok [e]) limit) as [E|E].
    + rewrite total_cons, total_nil in E. lia.
    + exists []. reflexivity.
  - destruct (Z.gtb_spec (total tok (x :: older ++ [e])) limit) as [E|E]; [exact IH|].
    exists (x :: older). reflexivity.
Qed.

Lemma trimmed_app_trimmed tok limit mem new :
  trimmed tok limit (trimmed tok limit mem ++ new) = trimmed tok limit (mem ++ new).
Proof.
  induction mem as [|e mem IH]; simpl; [reflexivity|].
  destruct (Z.gtb_spec (total tok (e :: mem)) limit) as [E|E]; [|reflexivity].
  rewrite IH.
  destruct (Z.gtb_spec (total tok (e :: mem ++ new)) limit) as [E'|E']; [reflexivity|].
  change (e :: mem ++ new) with ((e :: mem) ++ new) in E'.
  rewrite total_app in E'. pose proof (total_nonneg tok new). lia.
Qed.

Lemma trimmed_lower_limit tok limit1 limit2 mem :
  limit1 <= limit2 ->
  trimmed tok limit1 (trimmed tok limit2 mem) = trimmed tok limit1 mem.
Proof.
  intros Hle. induction mem as [|e mem IH]; simpl; [reflexivity|].
  destruct (Z.gtb_spec (total tok (e :: mem)) limit2) as [E2|E2]; [|reflexivity].
  rewrite IH.
  destruct (Z.gtb_spec (total tok (e :: mem)) limit1) as [E1|E1]; [reflexivity | lia].
Qed.

(** *** The trimming loop *)

Ltac block_cbn :=
  unfold with_memory in *;
  cbn [trim_loop fst snd current_memory token_limit tokenizer] in *.

Ltac next_sum tok mem Henc :=
  rewrite message_length_sum in *; block_cbn;
  rewrite (sum_tokens_encodable tok (skipn 1 mem)) in *
    by (apply encodable_skipn; exact Henc).

Lemma trim_loop_fits fuel self n :
  n <= token_limit self -> trim_loop fuel n self = (Done tt, self).
Proof.
  intros H.
  destruct fuel; simpl; destruct (Z.gtb_spec n (token_limit self)); try lia; reflexivity.
Qed.

(** Whatever the fuel, the limit and the tokenizer: the loop only drops
    entries from the front. *)
Lemma trim_loop_suffix fuel : forall self n,
  exists k,
    (k <= List.length (current_memory self))%nat /\
    snd (trim_loop fuel n self) = with_memory self (skipn k (current_memory self)).
Proof.
  induction fuel as [|fuel IH]; intros self n; cbn [trim_loop].
  - exists 0%nat. split; [lia|].
    destruct (n >? token_limit self); simpl; rewrite with_memory_same; reflexivity.
  - destruct (n >? token_limit self);
      [|exists 0%nat; split; [lia | simpl; rewrite with_memory_same; reflexivity]].
    cbv zeta.
    set (self' := with_memory self (skipn 1 (current_memory self))).
    destruct (message_length self') as [n'|e].
    + destruct (IH self' n') as [k [Hk Hs]].
      rewrite Hs. unfold self', with_memory in *.
      cbn [current_memory token_limit tokenizer] in *.
      rewrite skipn_skipn.
      destruct (Nat.le_gt_cases (k + 1) (List.length (current_memory self))) as [Hle|Hgt].
      * exists (k + 1)%nat. split; [exact Hle | reflexivity].
      * exists (List.length (current_memory self)). split; [lia|].
        rewrite skipn_all, (skipn_all2 (current_memory self)) by lia. reflexivity.
    + exists (Nat.min 1 (List.length (current_memory self))). split; [lia|]. simpl.
      unfold self'. destruct (current_memory self); reflexivity.
Qed.

(** On entries the tokenizer encodes the loop never raises, and returns
    only within the limit. *)
Lemma trim_loop_inv fuel : forall self,
  encodable (tokenizer self) (current_memory self) ->
  exists k,
    snd (trim_loop fuel (total (tokenizer self) (current_memory self)) self) =
      with_memory self (skipn k (current_memory self)) /\
    (forall e,
        fst (trim_loop fuel (total (tokenizer self) (current_memory self)) self)
        <> Raised e) /\
    (fst (trim_loop fuel (total (tokenizer self) (current_memory self)) self) = Done tt ->
     total (tokenizer self) (skipn k (current_memory self)) <= token_limit self).
Proof.
  induction fuel as [|fuel IH]; intros [mem limit tok] Henc; block_cbn.
  - exists 0%nat. destruct (Z.gtb_spec (total tok mem) limit) as [E|E]; block_cbn.
    + repeat split; [discriminate | discriminate].
    + repeat split; [discriminate | simpl; lia].
  - destruct (Z.gtb_spec (total tok mem) limit) as [E|E]; block_cbn.
    + next_sum tok mem Henc.
      destruct (IH (mkBlock (skipn 1 mem) limit tok)) as [k [H1 [H2 H3]]];
        [apply encodable_skipn; exact Henc|].
      block_cbn. exists (k + 1)%nat.
      rewrite <- skipn_skipn. auto.
    + exists 0%nat. repeat split; [discriminate | simpl; lia].
Qed.

(** With a round of fuel per entry the loop ends, on the longest suffix
    within the limit. *)
Lemma trim_loop_done fuel : forall self,
  0 <= token_limit self ->
  encodable (tokenizer self) (current_memory self) ->
  (List.length (current_memory self) <= fuel)%nat ->
  trim_loop fuel (total (tokenizer self) (current_memory self)) self =
  (Done tt, with_memory self
              (trimmed (tokenizer self) (token_limit self) (current_memory self))).
Proof.
  induction fuel as [|fuel IH]; intros [mem limit tok] Hl Henc Hf; block_cbn.
  - destruct mem; [|simpl in Hf; lia]. rewrite total_nil.
    destruct (Z.gtb_spec 0 limit) as [E|E]; [lia|]. reflexivity.
  - destruct mem as [|e mem].
    + rewrite total_nil. destruct (Z.gtb_spec 0 limit) as [E|E]; [lia|]. reflexivity.
    + cbn [trimmed].
      destruct (Z.gtb_spec (total tok (e :: mem)) limit) as [E|E]; [|reflexivity].
      next_sum tok (e :: mem) Henc. cbn [skipn] in *.
      pose proof (IH (mkBlock mem limit tok)) as IH'. block_cbn.
      rewrite IH';
        [reflexivity | lia | exact (encodable_skipn tok 1 (e :: mem) Henc)
        | simpl in Hf; lia].
Qed.

(** A loop that returns has run to its end: the buffer is the longest suffix
    within the limit. *)
Lemma trim_loop_returns fuel : forall self,
  encodable (tokenizer self) (current_memory self) ->
  fst (trim_loop fuel (total (tokenizer self) (current_memory self)) self) = Done tt ->
  snd (trim_loop fuel (total (tokenizer self) (current_memory self)) self) =
  with_memory self (trimmed (tokenizer self) (token_limit self) (current_memory self)).
Proof.
  induction fuel as [|fuel IH]; intros [mem limit tok] Henc; block_cbn;
    destruct (Z.gtb_spec (total tok mem) limit) as [E|E]; block_cbn; intros H;
    try discriminate;
    try (rewrite trimmed_fits by lia; reflexivity).
  next_sum tok mem Henc.
  pose proof (IH (mkBlock (skipn 1 mem) limit tok)) as IH'. block_cbn.
  rewrite IH'; [| apply encodable_skipn; exact Henc | exact H].
  destruct mem as [|e mem]; [reflexivity|]. cbn [skipn trimmed].
  destruct (Z.gtb_spec (total tok (e :: mem)) limit); [reflexivity | lia].
Qed.

(** Below zero the loop never ends: no amount of fuel is enough. *)
Lemma trim_loop_negative fuel : forall self,
  token_limit self < 0 ->
  encodable (tokenizer self) (current_memory self) ->
  fst (trim_loop fuel (total (tokenizer self) (current_memory self)) self) = OutOfFuel.
Proof.
  induction fuel as [|fuel IH]; intros [mem limit tok] Hl Henc; block_cbn;
    pose proof (total_nonneg tok mem);
    destruct (Z.gtb_spec (total tok mem) limit) as [E|E]; try lia.
  - reflexivity.
  - next_sum tok mem Henc.
    pose proof (IH (mkBlock (skipn 1 mem) limit tok)) as IH'. block_cbn.
    apply IH'; [exact Hl | apply encodable_skipn; exact Henc].
Qed.

(** *** [_aput] as a whole *)

Lemma trim_encodable fuel self :
  encodable (tokenizer self) (current_memory self) ->
  trim fuel self = trim_loop fuel (total (tokenizer self) (current_memory self)) self.
Proof.
  intros H. unfold trim. rewrite message_length_sum, (sum_tokens_encodable _ _ H).
  reflexivity.
Qed.

Lemma trim_raises fuel self e :
  message_length self = Err e -> trim fuel self = (Raised e, self).
Proof. intros H. unfold trim. rewrite H. reflexivity. Qed.

Lemma trim_cases fuel self :
  (exists e, message_length self = Err e /\ trim fuel self = (Raised e, self)) \/
  (encodable (tokenizer self) (current_memory self) /\
   trim fuel self = trim_loop fuel (total (tokenizer self) (current_memory self)) self).
Proof.
  destruct (message_length self) as [n|e] eqn:Hm.
  - right. rewrite message_length_sum in Hm. apply sum_tokens_ok in Hm.
    destruct Hm as [Henc _]. split; [exact Henc | apply trim_encodable; exact Henc].
  - left. exists e. split; [reflexivity | apply trim_raises; exact Hm].
Qed.

Lemma aput_unfold fuel messages self :
  _aput fuel messages self =
  match first_error messages with
  | None => trim fuel (with_memory self (current_memory self ++ appended messages))
  | Some e => (Raised e, with_memory self (current_memory self ++ appended messages))
  end.
Proof.
  unfold _aput, bind. rewrite put_messages_spec.
  destruct (first_error messages); reflexivity.
Qed.

(** Whatever way the call ends, the buffer is the old entries and the
    appended ones with some of the oldest dropped; limit and tokenizer stay. *)
Lemma aput_inv fuel messages self :
  exists k,
    (k <= List.length (current_memory self ++ appended messages))%nat /\
    snd (_aput fuel messages self) =
      with_memory self (skipn k (current_memory self ++ appended messages)) /\
    (fst (_aput fuel messages self) = Done tt ->
     exists n,
       sum_tokens (tokenizer self) (skipn k (current_memory self ++ appended messages))
         = Ok n /\
       n <= token_limit self).
Proof.
  rewrite aput_unfold.
  set (all := current_memory self ++ appended messages).
  destruct (first_error messages) as [e|].
  - exists 0%nat. simpl. repeat split; [lia | discriminate].
  - destruct (trim_cases fuel (with_memory self all)) as [[e [_ Hr]] | [Henc Hr]];
      rewrite Hr.
    + exists 0%nat. simpl. repeat split; [lia | discriminate].
    + destruct (trim_loop_inv fuel (with_memory self all) Henc) as [k [H1 [_ H3]]].
      simpl in *.
      destruct (Nat.le_ge_cases k (List.length all)) as [Hk|Hk].
      * exists k. split; [exact Hk|]. split; [rewrite H1; reflexivity|].
        intros Hd. exists (total (tokenizer self) (skipn k all)).
        split; [apply sum_tokens_encodable, encodable_skipn; exact Henc | exact (H3 Hd)].
      * exists (List.length all). rewrite skipn_all in *.
        rewrite (skipn_all2 all Hk) in *.
        split; [lia|]. split; [rewrite H1; reflexivity|].
        intros Hd. exists 0. split; [reflexivity | exact (H3 Hd)].
Qed.

(** A call that returns ran the loop to its end on entries the tokenizer
    encodes. *)
Lemma aput_returns fuel messages self :
  fst (_aput fuel messages self) = Done tt ->
  first_error messages = None /\
  encodable (tokenizer self) (current_memory self ++ appended messages) /\
  snd (_aput fuel messages self) =
    with_memory self
      (trimmed (tokenizer self) (token_limit self)
               (current_memory self ++ appended messages)).
Proof.
  rewrite aput_unfold.
  destruct (first_error messages) as [e|]; [discriminate|].
  destruct (trim_cases fuel
              (with_memory self (current_memory self ++ appended messages)))
    as [[e [_ Hr]] | [Henc Hr]]; rewrite Hr; [discriminate|].
  intros H. split; [reflexivity|]. split; [exact Henc|].
  rewrite (trim_loop_returns _ _ Henc H). reflexivity.
Qed.

Lemma aput_done fuel messages self :
  0 <= token_limit self ->
  first_error messages = None ->
  encodable (tokenizer self) (current_memory self ++ appended messages) ->
  (List.length (current_memory self) + List.length messages <= fuel)%nat ->
  _aput fuel messages self =
  (Done tt,
   with_memory self
     (trimmed (tokenizer self) (token_limit self)
              (current_memory self ++ appended messages))).
Proof.
  intros Hl He Henc Hf. rewrite aput_unfold, He.
  rewrite trim_encodable by exact Henc.
  rewrite trim_loop_done; [reflexivity | exact Hl | exact Henc |].
  simpl. rewrite length_app. pose proof (appended_length messages). lia.
Qed.

Lemma aput_not_out_of_fuel fuel messages self :
  0 <= token_limit self ->
  (List.length (current_memory self) + List.length messages <= fuel)%nat ->
  fst (_aput fuel messages self) <> OutOfFuel.
Proof.
  intros Hl Hf. rewrite aput_unfold.
  destruct (first_error messages) as [e|]; [discriminate|].
  destruct (trim_cases fuel
              (with_memory self (current_memory self ++ appended messages)))
    as [[e [_ Hr]] | [Henc Hr]]; rewrite Hr; [discriminate|].
  rewrite trim_loop_done; [discriminate | exact Hl | exact Henc |].
  simpl. rewrite length_app. pose proof (appended_length messages). lia.
Qed.

(** Below zero [_aput] never returns. *)
Lemma aput_negative_limit fuel messages self :
  token_limit self < 0 ->
  fst (_aput fuel messages self) <> Done tt.
Proof.
  intros Hl. rewrite aput_unfold.
  destruct (first_error messages) as [e|]; [discriminate|].
  destruct (trim_cases fuel
              (with_memory self (current_memory self ++ appended messages)))
    as [[e [_ Hr]] | [Henc Hr]]; rewrite Hr; [discriminate|].
  rewrite trim_loop_negative; [discriminate | exact Hl | exact Henc].
Qed.

Lemma aput_limit fuel messages self :
  token_limit (snd (_aput fuel messages self)) = token_limit self /\
  tokenizer (snd (_aput fuel messages self)) = tokenizer self /\
  (List.length (current_memory (snd (_aput fuel messages self)))
   <= List.length (current_memory self) + List.length messages)%nat.
Proof.
  destruct (aput_inv fuel messages self) as [k [_ [H _]]]. rewrite H. simpl.
  repeat split. rewrite length_skipn, length_app.
  pose proof (appended_length messages). lia.
Qed.

(** *** The token budget *)

(** C1. For every sequence of put calls on a block whose token limit is not
    negative, after each call that returns, the token counts of the retained
    entries sum to at most the token limit; and every call does end, given a
    round of the trimming loop per entry. *)
Theorem aput_within_budget fuel calls self :
  0 <= token_limit self ->
  Forall (fun r => fst r = Done tt ->
                   exists n, message_length (snd r) = Ok n /\ n <= token_limit self)
         (aput_trace fuel calls self) /\
  ((List.length (current_memory self) + List.length (List.concat calls) <= fuel)%nat ->
   Forall (fun r => fst r <> OutOfFuel) (aput_trace fuel calls self)).
Proof.
  intros Hl. split.
  - revert self Hl. induction calls as [|messages rest IH]; intros self Hl; simpl.
    + constructor.
    + destruct (aput_limit fuel messages self) as [Hlim [Htok _]].
      constructor.
      * intros Hd. destruct (aput_inv fuel messages self) as [k [_ [Hs Hb]]].
        rewrite message_length_sum, Hs. simpl. exact (Hb Hd).
      * rewrite <- Hlim. apply IH. rewrite Hlim. exact Hl.
  - revert self Hl. induction calls as [|messages rest IH]; intros self Hl Hf; simpl.
    + constructor.
    + destruct (aput_limit fuel messages self) as [Hlim [_ Hlen]].
      simpl in Hf. rewrite length_app in Hf.
      constructor.
      * apply aput_not_out_of_fuel; [exact Hl | lia].
      * apply IH; [rewrite Hlim; exact Hl | lia].
Qed.

(** *** Eviction and the newest entry *)

(** C2, amended. Eviction is oldest-first and does not spare the newest
    entry: after a put call that returns, if the most recent entry's token
    count alone exceeds the token limit the buffer is empty, and if it does not
    the buffer ends with that entry. *)
Theorem aput_newest_entry fuel messages self self' older newest :
  _aput fuel messages self = (Done tt, self') ->
  current_memory self ++ appended messages = older ++ [newest] ->
  exists n,
    token_count (tokenizer self) newest = Ok n /\
    (n > token_limit self -> current_memory self' = []) /\
    (n <= token_limit self -> exists rest, current_memory self' = rest ++ [newest]).
Proof.
  intros Hrun Hall.
  destruct (aput_returns fuel messages self) as [_ [Henc Hs]].
  { rewrite Hrun. reflexivity. }
  rewrite Hrun in Hs. simpl in Hs. subst self'. simpl. rewrite Hall in *.
  assert (Hn : exists n, token_count (tokenizer self) newest = Ok n).
  { apply token_count_encodable. unfold encodable in Henc.
    apply Forall_app in Henc. destruct Henc as [_ Hlast].
    inversion Hlast. assumption. }
  destruct Hn as [n Hn]. exists n. split; [exact Hn|].
  pose proof (token_count_count _ _ _ Hn) as Hc.
  split; intros Hcmp.
  - apply trimmed_last_over. lia.
  - apply trimmed_last_kept. lia.
Qed.

(** *** A limit of zero or less *)

(** C3, amended. With a token limit of zero, every put call whose messages
    raise nothing and whose entries the tokenizer encodes ends, and leaves
    only entries that have no tokens; when every entry has at least one token
    the buffer is left empty and a get that follows returns the empty
    string. *)
Theorem aput_zero_limit fuel messages self :
  token_limit self = 0 ->
  first_error messages = None ->
  encodable (tokenizer self) (current_memory self ++ appended messages) ->
  (List.length (current_memory self) + List.length messages <= fuel)%nat ->
  exists self',
    _aput fuel messages self = (Done tt, self') /\
    Forall (fun entry => token_count (tokenizer self) entry = Ok 0) (current_memory self') /\
    (Forall (fun entry => exists n, token_count (tokenizer self) entry = Ok n /\ n > 0)
            (current_memory self ++ appended messages) ->
     current_memory self' = [] /\ _aget None self' = (Done "", self')).
Proof.
  intros Hl He Henc Hf. eexists. split.
  - apply aput_done; [lia | exact He | exact Henc | exact Hf].
  - simpl. rewrite Hl.
    set (tok := tokenizer self) in *.
    set (all := current_memory self ++ appended messages) in *.
    clearbody all. split.
    + assert (Hzero : Forall (fun entry => count tok entry = 0) (trimmed tok 0 all)).
      { clear Henc. induction all as [|e all IH]; simpl; [constructor|].
        destruct (Z.gtb_spec (total tok (e :: all)) 0) as [E|E]; [exact IH|].
        clear IH. revert E. generalize (e :: all). intros l.
        induction l as [|x l IH]; intros E; constructor.
        * rewrite total_cons in E. pose proof (count_nonneg tok x).
          pose proof (total_nonneg tok l). lia.
        * apply IH. rewrite total_cons in E. pose proof (count_nonneg tok x).
          pose proof (total_nonneg tok l). lia. }
      assert (Hsub : encodable tok (trimmed tok 0 all)).
      { destruct (trimmed_minimal tok 0 all) as [k [_ [-> _]]].
        apply encodable_skipn. exact Henc. }
      unfold encodable in Hsub. rewrite Forall_forall in *.
      intros entry Hin. destruct (proj1 (token_count_encodable tok entry) (Hsub entry Hin))
        as [n Hn].
      rewrite Hn. f_equal. rewrite <- (token_count_count _ _ _ Hn). apply Hzero. exact Hin.
    + intros Hpos.
      assert (Hnil : trimmed tok 0 all = []).
      { clear Henc. induction Hpos as [|e all [n [Hn Hgt]] _ IH]; [reflexivity|]. simpl.
        destruct (Z.gtb_spec (total tok (e :: all)) 0) as [E|E]; [exact IH|].
        rewrite total_cons, (token_count_count _ _ _ Hn) in E.
        pose proof (total_nonneg tok all). lia. }
      rewrite Hnil. split; reflexivity.
Qed.

(** *** A call without messages *)

(** C8, amended. For every buffer state whose token total is within the
    token limit, put with an empty message sequence is a no-op: the call
    returns with the entry sequence and its token total unchanged. *)
Theorem aput_empty_noop fuel self n :
  message_length self = Ok n ->
  n <= token_limit self ->
  _aput fuel [] self = (Done tt, self) /\
  current_memory (snd (_aput fuel [] self)) = current_memory self /\
  message_length (snd (_aput fuel [] self)) = message_length self.
Proof.
  intros Hn H.
  assert (Hrun : _aput fuel [] self = (Done tt, self)).
  { rewrite aput_unfold. simpl. rewrite app_nil_r, with_memory_same.
    unfold trim. rewrite Hn. apply trim_loop_fits. exact H. }
  rewrite Hrun. auto.
Qed.

(** *** The filtered attribute mapping *)

Lemma dict_get_set d k v k' :
  dict_get (dict_set d k v) k' = if String.eqb k k' then Some v else dict_get d k'.
Proof.
  induction d as [|[k0 v0] rest IH]; simpl.
  - reflexivity.
  - destruct (String.eqb_spec k0 k) as [E|E]; simpl.
    + subst k0. destruct (String.eqb_spec k k'); reflexivity.
    + rewrite IH. destruct (String.eqb_spec k0 k') as [E'|E']; [|reflexivity].
      subst k0. destruct (String.eqb_spec k k'); [congruence | reflexivity].
Qed.

Lemma dict_keys_set_fresh d k v :
  ~ In k (dict_keys d) -> dict_keys (dict_set d k v) = dict_keys d ++ [k].
Proof.
  unfold dict_keys. induction d as [|[k0 v0] rest IH]; simpl; intros H.
  - reflexivity.
  - destruct (String.eqb_spec k0 k) as [E|E]; [destruct H; left; exact E|].
    simpl. rewrite IH; [reflexivity | intros Hin; apply H; right; exact Hin].
Qed.

Lemma mapM_Forall2 {A B} (f : A -> res B) l l' :
  mapM f l = Ok l' -> Forall2 (fun x y => f x = Ok y) l l'.
Proof.
  revert l'. induction l as [|x l IH]; simpl; intros l' H.
  - inversion H. constructor.
  - destruct (f x) as [y|] eqn:Hx; simpl in H; [|discriminate].
    destruct (mapM f l) as [ys|]; simpl in H; [|discriminate].
    inversion H. constructor; [exact Hx | apply IH; reflexivity].
Qed.

Lemma reduce_tool_call_ok tool_call reduced :
  reduce_tool_call tool_call = Ok reduced ->
  exists fn name args,
    getitem tool_call "function" = Ok fn /\
    getitem fn "name" = Ok name /\
    getitem fn "arguments" = Ok args /\
    reduced = PyDict [("name", name); ("args", args)].
Proof.
  unfold reduce_tool_call.
  destruct (getitem tool_call "function") as [fn|] eqn:Hf; simpl; [|discriminate].
  destruct (getitem fn "name") as [name|] eqn:Hn; simpl; [|discriminate].
  destruct (getitem fn "arguments") as [args|] eqn:Ha; simpl; [|discriminate].
  intros H. injection H as <-. exists fn, name, args. repeat split; assumption.
Qed.

(** What one round of the loop over the attributes does to the mapping. *)
Lemma kwargs_step_cases acc key val acc' :
  kwargs_step acc (key, val) = Ok acc' ->
  (key = "tool_calls" /\
   exists records reduced,
     iter val = Ok records /\
     mapM reduce_tool_call records = Ok reduced /\
     acc' = dict_set acc key (PyList reduced)) \/
  (key <> "tool_calls" /\ kept_key key = true /\ acc' = dict_set acc key val) \/
  (key <> "tool_calls" /\ kept_key key = false /\ acc' = acc).
Proof.
  unfold kwargs_step. fold (kept_key key).
  destruct (String.eqb_spec key "tool_calls") as [E|E].
  - destruct (iter val) as [records|]; simpl; [|discriminate].
    destruct (mapM reduce_tool_call records) as [reduced|] eqn:Hm; simpl; [|discriminate].
    intros H. inversion H. left. split; [exact E|].
    exists records, reduced. auto.
  - destruct (kept_key key); intros H; inversion H; auto.
Qed.

#[local] Arguments kwargs_step : simpl never.

Lemma kwargs_step_other acc key val acc' k :
  kwargs_step acc (key, val) = Ok acc' -> key <> k -> dict_get acc' k = dict_get acc k.
Proof.
  intros H Hne.
  destruct (kwargs_step_cases _ _ _ _ H)
    as [[_ [records [reduced [_ [_ ->]]]]] | [[_ [_ ->]] | [_ [_ ->]]]];
    rewrite ?dict_get_set; try reflexivity;
    destruct (String.eqb_spec key k); congruence.
Qed.

Lemma kwargs_step_keys acc key val acc' :
  kwargs_step acc (key, val) = Ok acc' ->
  ~ In key (dict_keys acc) ->
  dict_keys acc' = dict_keys acc ++ (if kept_key key then [key] else []).
Proof.
  intros H Hfresh.
  destruct (kwargs_step_cases _ _ _ _ H)
    as [[E [records [reduced [_ [_ ->]]]]] | [[_ [E ->]] | [_ [E ->]]]].
  - rewrite dict_keys_set_fresh by exact Hfresh. subst key. reflexivity.
  - rewrite dict_keys_set_fresh by exact Hfresh. rewrite E. reflexivity.
  - rewrite E, app_nil_r. reflexivity.
Qed.

Lemma kwargs_loop_other items : forall acc kwargs k,
  kwargs_loop acc items = Ok kwargs ->
  ~ In k (dict_keys items) ->
  dict_get kwargs k = dict_get acc k.
Proof.
  induction items as [|[key val] rest IH]; simpl; intros acc kwargs k H Hk.
  - inversion H. reflexivity.
  - destruct (kwargs_step acc (key, val)) as [acc'|] eqn:Hs; simpl in H; [|discriminate].
    rewrite (IH _ _ _ H) by (intros Hin; apply Hk; right; exact Hin).
    apply (kwargs_step_other _ _ _ _ _ Hs). intros E. apply Hk. left. exact E.
Qed.

Lemma kwargs_loop_dropped items : forall acc kwargs k,
  kwargs_loop acc items = Ok kwargs ->
  kept_key k = false ->
  dict_get kwargs k = dict_get acc k.
Proof.
  induction items as [|[key val] rest IH]; simpl; intros acc kwargs k H Hk.
  - inversion H. reflexivity.
  - destruct (kwargs_step acc (key, val)) as [acc'|] eqn:Hs; simpl in H; [|discriminate].
    rewrite (IH _ _ _ H Hk).
    destruct (String.eqb_spec key k) as [E|E].
    + subst key.
      destruct (kwargs_step_cases _ _ _ _ Hs)
        as [[E _] | [[_ [E _]] | [_ [_ ->]]]].
      * subst k. discriminate Hk.
      * congruence.
      * reflexivity.
    + apply (kwargs_step_other _ _ _ _ _ Hs E).
Qed.

Lemma kwargs_loop_get items : forall acc kwargs k val,
  NoDup (dict_keys items) ->
  kwargs_loop acc items = Ok kwargs ->
  dict_get items k = Some val ->
  kept_key k = true ->
  (k <> "tool_calls" /\ dict_get kwargs k = Some val) \/
  (k = "tool_calls" /\
   exists records reduced,
     iter val = Ok records /\
     mapM reduce_tool_call records = Ok reduced /\
     dict_get kwargs k = Some (PyList reduced)).
Proof.
  induction items as [|[key v] rest IH]; simpl; intros acc kwargs k val Hnd H Hget Hk.
  - discriminate.
  - destruct (kwargs_step acc (key, v)) as [acc'|] eqn:Hs; simpl in H; [|discriminate].
    inversion Hnd as [|? ? Hfresh Hnd']; subst.
    destruct (String.eqb_spec key k) as [E|E].
    + subst key. inversion Hget; subst v.
      rewrite (kwargs_loop_other _ _ _ _ H Hfresh).
      destruct (kwargs_step_cases _ _ _ _ Hs)
        as [[E [records [reduced [Hi [Hm ->]]]]] | [[E [_ ->]] | [_ [E _]]]].
      * right. split; [exact E|]. exists records, reduced.
        rewrite dict_get_set, String.eqb_refl. auto.
      * left. rewrite dict_get_set, String.eqb_refl. auto.
      * congruence.
    + apply (IH acc'); assumption.
Qed.

Lemma kwargs_loop_keys items : forall acc kwargs,
  NoDup (dict_keys acc ++ dict_keys items) ->
  kwargs_loop acc items = Ok kwargs ->
  dict_keys kwargs = dict_keys acc ++ filter kept_key (dict_keys items).
Proof.
  induction items as [|[key val] rest IH]; simpl; intros acc kwargs Hnd H.
  - inversion H. rewrite app_nil_r. reflexivity.
  - destruct (kwargs_step acc (key, val)) as [acc'|] eqn:Hs; simpl in H; [|discriminate].
    assert (Hfresh : ~ In key (dict_keys acc)).
    { intros Hin. apply NoDup_remove_2 in Hnd. apply Hnd. apply in_or_app. auto. }
    pose proof (kwargs_step_keys _ _ _ _ Hs Hfresh) as Hk.
    rewrite (IH acc' kwargs); [| |exact H].
    + rewrite Hk. destruct (kept_key key); simpl.
      * rewrite <- app_assoc. reflexivity.
      * rewrite app_nil_r. reflexivity.
    + rewrite Hk. destruct (kept_key key).
      * rewrite <- app_assoc. exact Hnd.
      * rewrite app_nil_r. apply NoDup_remove_1 in Hnd. exact Hnd.
Qed.

Lemma dict_get_none d k : dict_get d k = None -> ~ In k (dict_keys d).
Proof.
  unfold dict_keys. induction d as [|[k0 v0] rest IH]; simpl; intros H.
  - intros [].
  - destruct (String.eqb_spec k0 k) as [E|E]; [discriminate|].
    intros [Hin|Hin]; [congruence | exact (IH H Hin)].
Qed.

(** *** Well-formed tool calls *)

Lemma has_key_getitem v k : has_key v k = true -> exists x, getitem v k = Ok x.
Proof.
  destruct v; simpl; try discriminate.
  destruct (dict_get d k) as [x|]; [|discriminate]. intros _. exists x. reflexivity.
Qed.

Lemma well_formed_tool_call_ok tool_call :
  well_formed_tool_call tool_call = true ->
  exists fn name args,
    getitem tool_call "function" = Ok fn /\
    getitem fn "name" = Ok name /\
    getitem fn "arguments" = Ok args /\
    reduce_tool_call tool_call = Ok (PyDict [("name", name); ("args", args)]).
Proof.
  unfold well_formed_tool_call, reduce_tool_call.
  destruct (getitem tool_call "function") as [fn|] eqn:Hf; [|discriminate].
  intros H. apply andb_prop in H. destruct H as [Hn Ha].
  destruct (has_key_getitem _ _ Hn) as [name Hname].
  destruct (has_key_getitem _ _ Ha) as [args Hargs].
  exists fn, name, args. simpl. rewrite Hname. simpl. rewrite Hargs. auto.
Qed.

Lemma mapM_well_formed records :
  forallb well_formed_tool_call records = true ->
  exists reduced, mapM reduce_tool_call records = Ok reduced.
Proof.
  induction records as [|r rest IH]; simpl; intros H.
  - exists []. reflexivity.
  - apply andb_prop in H. destruct H as [Hr Hrest].
    destruct (well_formed_tool_call_ok _ Hr) as [fn [name [args [_ [_ [_ Hred]]]]]].
    destruct (IH Hrest) as [reduced Hreduced].
    rewrite Hred, Hreduced. simpl. eauto.
Qed.

Lemma kwargs_step_well_formed acc item :
  well_formed_item item = true -> exists acc', kwargs_step acc item = Ok acc'.
Proof.
  destruct item as [key val]. unfold well_formed_item, kwargs_step. simpl.
  destruct (String.eqb key "tool_calls").
  - destruct val; try discriminate. intros H.
    destruct (mapM_well_formed _ H) as [reduced Hreduced].
    simpl. rewrite Hreduced. simpl. eauto.
  - intros _. destruct (negb _ && negb _); eauto.
Qed.

Lemma kwargs_loop_well_formed items : forall acc,
  forallb well_formed_item items = true ->
  exists kwargs, kwargs_loop acc items = Ok kwargs.
Proof.
  induction items as [|item rest IH]; simpl; intros acc H.
  - eauto.
  - apply andb_prop in H. destruct H as [Hi Hrest].
    destruct (kwargs_step_well_formed acc item Hi) as [acc' Hacc].
    rewrite Hacc. simpl. apply IH. exact Hrest.
Qed.

(** C5. The filtered attribute mapping built for a message has no entry under
    the session identifier or the tool-call identifier, holds under the
    tool-calls key the list of reduced records (the tool's name and its
    serialized arguments, nothing else), and passes every other key with its
    value through, in the order of the message's attributes; it is built
    without error when the tool-call records are well formed. *)
Theorem filtered_kwargs_spec message :
  NoDup (dict_keys (additional_kwargs message)) ->
  (well_formed_kwargs (additional_kwargs message) = true ->
   exists kwargs, filtered_kwargs message = Ok kwargs) /\
  (forall kwargs,
      filtered_kwargs message = Ok kwargs ->
      dict_get kwargs "session_id" = None /\
      dict_get kwargs "tool_call_id" = None /\
      (forall val,
          dict_get (additional_kwargs message) "tool_calls" = Some val ->
          exists records reduced,
            iter val = Ok records /\
            dict_get kwargs "tool_calls" = Some (PyList reduced) /\
            Forall2 (fun record r =>
                       exists fn name args,
                         getitem record "function" = Ok fn /\
                         getitem fn "name" = Ok name /\
                         getitem fn "arguments" = Ok args /\
                         r = PyDict [("name", name); ("args", args)])
                    records reduced) /\
      (forall key,
          key <> "tool_calls" -> key <> "session_id" -> key <> "tool_call_id" ->
          dict_get kwargs key = dict_get (additional_kwargs message) key) /\
      dict_keys kwargs = filter kept_key (dict_keys (additional_kwargs message))).
Proof.
  intros Hnd. split.
  - intros Hwf. apply kwargs_loop_well_formed. exact Hwf.
  - unfold filtered_kwargs. intros kwargs H.
    split; [apply (kwargs_loop_dropped _ _ _ _ H); reflexivity|].
    split; [apply (kwargs_loop_dropped _ _ _ _ H); reflexivity|].
    split; [|split].
    + intros val Hval.
      destruct (kwargs_loop_get _ _ _ _ _ Hnd H Hval)
        as [[Hne _] | [_ [records [reduced [Hi [Hm Hg]]]]]];
        [reflexivity | congruence |].
      exists records, reduced. split; [exact Hi|]. split; [exact Hg|].
      apply mapM_Forall2 in Hm.
      eapply Forall2_impl; [|exact Hm].
      intros record r Hr. apply reduce_tool_call_ok. exact Hr.
    + intros key H1 H2 H3.
      assert (Hkept : kept_key key = true).
      { unfold kept_key.
        destruct (String.eqb_spec key "session_id"); [congruence|].
        destruct (String.eqb_spec key "tool_call_id"); [congruence|]. reflexivity. }
      destruct (dict_get (additional_kwargs message) key) as [val|] eqn:Hget.
      * destruct (kwargs_loop_get _ _ _ _ _ Hnd H Hget Hkept) as [[_ Hg] | [E _]];
          [exact Hg | congruence].
      * apply (kwargs_loop_other _ _ _ _ H). apply dict_get_none. exact Hget.
    + apply (kwargs_loop_keys _ [] kwargs); [exact Hnd | exact H].
Qed.

(** *** Tool calls and the errors of a put call *)

Lemma filtered_kwargs_well_formed message :
  well_formed_kwargs (additional_kwargs message) = true ->
  exists kwargs, filtered_kwargs message = Ok kwargs.
Proof. intros H. apply kwargs_loop_well_formed. exact H. Qed.

(** A message raises nothing when its attributes are filtered and the
    filtered mapping, if it is not empty, can be printed. *)
Lemma memory_str_ok message kwargs :
  filtered_kwargs message = Ok kwargs ->
  (kwargs <> [] -> exists rendered, str_of_dict kwargs = Ok rendered) ->
  exists s, memory_str message = Ok s.
Proof.
  intros Hk Hr. unfold memory_str. rewrite Hk. simpl.
  destruct kwargs as [|item kwargs]; simpl; [eauto|].
  destruct Hr as [rendered Hr]; [discriminate|]. rewrite Hr. simpl. eauto.
Qed.

Lemma first_error_none messages :
  Forall (fun message => exists s, memory_str message = Ok s) messages ->
  first_error messages = None.
Proof.
  induction 1 as [|m rest [s Hs] _ IH]; simpl; [reflexivity|].
  rewrite Hs. exact IH.
Qed.

(** C10, amended. When the tool-calls attribute of every message, if it has
    one, is a list of records that are mappings with a "function" mapping
    holding "name" and "arguments", the reduced record is made of these two
    fields alone and the attribute filter raises nothing: no lookup fails.
    The put call then completes without error if moreover the filtered
    attributes can be printed, the tokenizer encodes every entry and the
    token limit is not negative. *)
Theorem aput_tool_calls_safe fuel messages self :
  Forall (fun message => well_formed_kwargs (additional_kwargs message) = true) messages ->
  (forall tool_call tool_call' fn fn',
      getitem tool_call "function" = Ok fn ->
      getitem tool_call' "function" = Ok fn' ->
      getitem fn "name" = getitem fn' "name" ->
      getitem fn "arguments" = getitem fn' "arguments" ->
      reduce_tool_call tool_call = reduce_tool_call tool_call') /\
  Forall (fun message => exists kwargs, filtered_kwargs message = Ok kwargs) messages /\
  (Forall (fun message =>
             forall kwargs, filtered_kwargs message = Ok kwargs -> kwargs <> [] ->
                            exists rendered, str_of_dict kwargs = Ok rendered)
          messages ->
   fst (put_messages messages self) = Done tt /\
   (encodable (tokenizer self) (current_memory self ++ appended messages) ->
    (forall e, fst (_aput fuel messages self) <> Raised e) /\
    (0 <= token_limit self ->
     (List.length (current_memory self) + List.length messages <= fuel)%nat ->
     fst (_aput fuel messages self) = Done tt))).
Proof.
  intros Hwf.
  assert (Hfilter : Forall (fun message => exists kwargs, filtered_kwargs message = Ok kwargs)
                           messages).
  { eapply Forall_impl; [|exact Hwf]. intros m Hm.
    apply filtered_kwargs_well_formed. exact Hm. }
  split; [|split; [exact Hfilter|]].
  - intros tool_call tool_call' fn fn' Hf Hf' Hn Ha.
    unfold reduce_tool_call. rewrite Hf, Hf'. simpl. rewrite Hn.
    destruct (getitem fn' "name"); simpl; [|reflexivity].
    rewrite Ha. reflexivity.
  - intros Hprint.
    assert (He : first_error messages = None).
    { apply first_error_none. rewrite Forall_forall in *.
      intros m Hin. destruct (Hfilter m Hin) as [kwargs Hk].
      apply (memory_str_ok m kwargs Hk). apply (Hprint m Hin kwargs Hk). }
    split; [rewrite put_messages_spec, He; reflexivity|].
    intros Henc. split.
    + intros e. rewrite aput_unfold, He, trim_encodable by exact Henc.
      destruct (trim_loop_inv fuel
                  (with_memory self (current_memory self ++ appended messages)) Henc)
        as [k [_ [Hne _]]].
      apply Hne.
    + intros Hl Hf. rewrite aput_done; [reflexivity | exact Hl | exact He | exact Henc | exact Hf].
Qed.

(** *** The entry of a message *)

Lemma str_truthy_id (s : string) : (if str_truthy s then s else "") = s.
Proof. destruct s; reflexivity. Qed.

Lemma str_app_nil (s : string) : (s ++ "")%string = s.
Proof. induction s as [|c s IH]; simpl; [reflexivity | now rewrite IH]. Qed.

Lemma block_texts_app bs1 bs2 :
  block_texts (bs1 ++ bs2) = block_texts bs1 ++ block_texts bs2.
Proof.
  induction bs1 as [|[t|kind] bs1 IH]; simpl; [reflexivity | rewrite IH; reflexivity | exact IH].
Qed.

Lemma block_texts_text texts : block_texts (map TextBlock texts) = texts.
Proof. induction texts as [|t texts IH]; simpl; [reflexivity | rewrite IH; reflexivity]. Qed.

Lemma block_texts_other bs :
  Forall (fun b => exists kind, b = OtherBlock kind) bs -> block_texts bs = [].
Proof.
  induction 1 as [|b bs [kind ->] _ IH]; simpl; [reflexivity | exact IH].
Qed.

Lemma memory_str_entry message kwargs rendered :
  filtered_kwargs message = Ok kwargs ->
  (kwargs <> [] -> str_of_dict kwargs = Ok rendered) ->
  memory_str message = Ok (spec_entry (block_texts (blocks message)) kwargs rendered).
Proof.
  intros H Hr. unfold memory_str, spec_entry. rewrite H, str_truthy_id. simpl.
  destruct kwargs as [|item kwargs]; simpl; [reflexivity|].
  rewrite Hr by discriminate. reflexivity.
Qed.

Lemma memory_str_unprintable message kwargs e :
  filtered_kwargs message = Ok kwargs ->
  kwargs <> [] ->
  str_of_dict kwargs = Err e ->
  memory_str message = Err e.
Proof.
  intros H Hne Hr. unfold memory_str. rewrite H. simpl.
  destruct kwargs as [|item kwargs]; [congruence|]. simpl. rewrite Hr. reflexivity.
Qed.

(** C4. The entry put appends for a message is the newline-join of the texts
    of its text segments (the other segments add nothing, and without text
    segments this part is empty), followed, exactly when the filtered
    attribute mapping is not empty, by a newline and the mapping's printed
    form in parentheses; a message of non-text segments only, with filtered
    attributes, still gets the annotation.  (A mapping that cannot be printed
    makes the call raise, with nothing appended.) *)
Theorem put_message_entry message kwargs self :
  filtered_kwargs message = Ok kwargs ->
  (forall rendered,
      (kwargs <> [] -> str_of_dict kwargs = Ok rendered) ->
      put_message message self =
        (Done tt,
         with_memory self
           (current_memory self ++
            [spec_entry (block_texts (blocks message)) kwargs rendered]))) /\
  (forall e, kwargs <> [] -> str_of_dict kwargs = Err e ->
             put_message message self = (Raised e, self)) /\
  (forall before kind after,
      blocks message = before ++ OtherBlock kind :: after ->
      block_texts (blocks message) = block_texts (before ++ after)) /\
  (forall texts, blocks message = map TextBlock texts ->
                 block_texts (blocks message) = texts) /\
  (Forall (fun b => exists kind, b = OtherBlock kind) (blocks message) ->
   kwargs <> [] ->
   forall rendered,
     str_of_dict kwargs = Ok rendered ->
     memory_str message = Ok (nl ++ "(" ++ rendered ++ ")")%string).
Proof.
  intros H. split; [|split; [|split; [|split]]].
  - intros rendered Hr.
    rewrite (put_message_ok _ _ _ (memory_str_entry message kwargs rendered H Hr)).
    reflexivity.
  - intros e Hne Hr. apply put_message_err.
    apply (memory_str_unprintable message kwargs e H Hne Hr).
  - intros before kind after Hb. rewrite Hb, !block_texts_app. reflexivity.
  - intros texts Hb. rewrite Hb. apply block_texts_text.
  - intros Hother Hne rendered Hr.
    rewrite (memory_str_entry message kwargs rendered H (fun _ => Hr)).
    unfold spec_entry. rewrite (block_texts_other _ Hother).
    destruct kwargs; [congruence | reflexivity].
Qed.

(** *** Reading the buffer *)

(** C6. get returns the current entries joined by newline, in the order of
    the buffer, and leaves the block as it was; on an empty buffer it returns
    the empty string; a second get returns the same string. *)
Theorem aget_spec messages messages' self :
  _aget messages self = (Done (String.concat nl (current_memory self)), self) /\
  _aget messages (with_memory self []) = (Done "", with_memory self []) /\
  _aget messages' (snd (_aget messages self)) = _aget messages self.
Proof. repeat split. Qed.

(** *** Order of the entries *)

(** After any sequence of calls the buffer is what was there and what the
    calls appended, in that order, less some of the oldest entries. *)
Lemma aput_all_suffix fuel calls : forall self,
  exists k,
    (k <= List.length (current_memory self ++ flat_map appended calls))%nat /\
    aput_all fuel calls self =
    with_memory self (skipn k (current_memory self ++ flat_map appended calls)).
Proof.
  induction calls as [|messages rest IH]; intros self; simpl.
  - exists 0%nat. rewrite app_nil_r. simpl. rewrite with_memory_same.
    split; [lia | reflexivity].
  - destruct (aput_inv fuel messages self) as [k1 [Hk1 [Hs _]]].
    destruct (IH (snd (_aput fuel messages self))) as [k2 [Hk2 Hall]].
    rewrite Hall, Hs. rewrite Hs in Hk2. simpl in *.
    exists (k2 + k1)%nat.
    rewrite app_assoc, <- skipn_skipn.
    rewrite (skipn_app k1 (current_memory self ++ appended messages)).
    replace (k1 - List.length (current_memory self ++ appended messages))%nat
      with 0%nat by lia.
    simpl. split; [|reflexivity].
    rewrite length_app, length_skipn in Hk2. rewrite length_app. lia.
Qed.

(** C7. After every sequence of put calls, the buffer is a suffix of the
    entries in insertion order, get prints it in that order, and of two
    entries that remain the one that get prints first was inserted first. *)
Theorem aput_order_preserved fuel calls self :
  exists k,
    current_memory (aput_all fuel calls self) =
      skipn k (current_memory self ++ flat_map appended calls) /\
    fst (_aget None (aput_all fuel calls self)) =
      Done (String.concat nl (skipn k (current_memory self ++ flat_map appended calls))) /\
    forall i j entry_i entry_j,
      (i < j)%nat ->
      nth_error (current_memory (aput_all fuel calls self)) i = Some entry_i ->
      nth_error (current_memory (aput_all fuel calls self)) j = Some entry_j ->
      nth_error (current_memory self ++ flat_map appended calls) (k + i) = Some entry_i /\
      nth_error (current_memory self ++ flat_map appended calls) (k + j) = Some entry_j /\
      (k + i < k + j)%nat.
Proof.
  destruct (aput_all_suffix fuel calls self) as [k [_ H]].
  exists k. rewrite H. simpl. split; [reflexivity|]. split; [reflexivity|].
  intros i j entry_i entry_j Hij Hi Hj.
  rewrite nth_error_skipn in Hi, Hj. repeat split; [exact Hi | exact Hj | lia].
Qed.

(** *** The role of a message *)

Lemma memory_str_role message message' :
  blocks message = blocks message' ->
  additional_kwargs message = additional_kwargs message' ->
  memory_str message = memory_str message'.
Proof.
  intros Hb Hk. unfold memory_str, filtered_kwargs. rewrite Hb, Hk. reflexivity.
Qed.

(** C9. The entry put appends does not depend on the role: two messages with
    the same segments and attributes give the same entry, and a put call with
    the one in place of the other ends the same way on the same block. *)
Theorem aput_role_independent fuel before after message message' self :
  blocks message = blocks message' ->
  additional_kwargs message = additional_kwargs message' ->
  memory_str message = memory_str message' /\
  put_message message self = put_message message' self /\
  _aput fuel (before ++ message :: after) self =
  _aput fuel (before ++ message' :: after) self.
Proof.
  intros Hb Hk. pose proof (memory_str_role _ _ Hb Hk) as Hm.
  assert (Hp : forall s, put_message message s = put_message message' s).
  { intros s. unfold put_message, bind. rewrite Hm. reflexivity. }
  split; [exact Hm|]. split; [apply Hp|].
  unfold _aput, bind.
  assert (Hps : forall s, put_messages (before ++ message :: after) s =
                          put_messages (before ++ message' :: after) s).
  { induction before as [|m before IH]; intros s; simpl; unfold bind.
    - rewrite Hp. reflexivity.
    - destruct (put_message m s) as [[[]|e|] s']; [apply IH | reflexivity | reflexivity]. }
  rewrite Hps. reflexivity.
Qed.

(** ** Further properties of the block *)

(** *** A call that raises *)

(** X1. When a message of the batch raises, put raises that error at once:
    the entries of the messages before it are in the buffer, one each, and
    nothing is trimmed; the messages after it are not looked at. *)
Theorem aput_raise_partial fuel before bad after e self :
  first_error before = None ->
  memory_str bad = Err e ->
  _aput fuel (before ++ bad :: after) self =
    (Raised e, with_memory self (current_memory self ++ appended before)) /\
  Forall2 (fun message entry => memory_str message = Ok entry) before (appended before).
Proof.
  intros Hb He. split; [|apply appended_all; exact Hb].
  rewrite aput_unfold.
  rewrite (first_error_app _ _ Hb), (appended_app _ _ Hb). simpl.
  rewrite He, app_nil_r. reflexivity.
Qed.

(** *** How much is evicted *)

(** X2. A put call that returns has evicted no more than it had to: the
    buffer is the entries with the [k] oldest dropped, and dropping fewer
    would leave the total over the limit. *)
Theorem aput_evicts_least fuel messages self self' :
  _aput fuel messages self = (Done tt, self') ->
  exists k,
    current_memory self' = skipn k (current_memory self ++ appended messages) /\
    forall k', (k' < k)%nat ->
      exists n,
        sum_tokens (tokenizer self) (skipn k' (current_memory self ++ appended messages))
          = Ok n /\
        n > token_limit self.
Proof.
  intros Hrun.
  destruct (aput_returns fuel messages self) as [_ [Henc Hs]]; [rewrite Hrun; reflexivity|].
  rewrite Hrun in Hs. simpl in Hs. subst self'. simpl.
  destruct (trimmed_minimal (tokenizer self) (token_limit self)
              (current_memory self ++ appended messages)) as [k [_ [Hk Hmin]]].
  exists k. split; [exact Hk|].
  intros k' Hk'. eexists. split; [|exact (Hmin k' Hk')].
  apply sum_tokens_encodable, encodable_skipn. exact Henc.
Qed.

(** X3. When the old entries and the new ones fit the limit together, put
    returns at once, whatever the fuel, with one entry per message after the
    old ones and nothing evicted. *)
Theorem aput_fits_keeps_all fuel messages self n :
  first_error messages = None ->
  sum_tokens (tokenizer self) (current_memory self ++ appended messages) = Ok n ->
  n <= token_limit self ->
  _aput fuel messages self =
    (Done tt, with_memory self (current_memory self ++ appended messages)) /\
  List.length (appended messages) = List.length messages.
Proof.
  intros He Hn Hfit. split.
  - rewrite aput_unfold, He. unfold trim. rewrite message_length_sum. simpl.
    rewrite Hn. apply trim_loop_fits. exact Hfit.
  - symmetry. apply (Forall2_length (appended_all _ He)).
Qed.

(** X4. After a put call that returned, a put call without messages changes
    nothing, whatever its fuel. *)
Theorem aput_then_empty fuel fuel' messages self self' :
  _aput fuel messages self = (Done tt, self') ->
  _aput fuel' [] self' = (Done tt, self').
Proof.
  intros Hrun.
  destruct (aput_inv fuel messages self) as [k [_ [Hs Hb]]].
  rewrite Hrun in Hs, Hb. simpl in Hs, Hb.
  destruct (Hb eq_refl) as [n [Hn Hle]].
  rewrite aput_unfold. simpl. rewrite app_nil_r, with_memory_same.
  unfold trim. rewrite message_length_sum, Hs. simpl. rewrite Hn.
  apply trim_loop_fits. exact Hle.
Qed.

(** X5. With a limit that is not negative, messages that do not raise and
    entries the tokenizer encodes, putting a batch in two calls leaves the
    block that putting it in one call leaves. *)
Theorem aput_split_batch fuel ms1 ms2 self :
  0 <= token_limit self ->
  first_error (ms1 ++ ms2) = None ->
  encodable (tokenizer self) (current_memory self ++ appended (ms1 ++ ms2)) ->
  (List.length (current_memory self) + List.length (ms1 ++ ms2) <= fuel)%nat ->
  fst (_aput fuel ms1 self) = Done tt /\
  _aput fuel ms2 (snd (_aput fuel ms1 self)) = _aput fuel (ms1 ++ ms2) self /\
  fst (_aput fuel (ms1 ++ ms2) self) = Done tt.
Proof.
  intros Hl He Henc Hf. rewrite length_app in Hf.
  destruct (first_error_app_none _ _ He) as [He1 He2].
  rewrite (appended_app _ _ He1), app_assoc in Henc.
  assert (Henc1 : encodable (tokenizer self) (current_memory self ++ appended ms1)).
  { unfold encodable in *. apply Forall_app in Henc. apply Henc. }
  assert (Henc2 : encodable (tokenizer self) (appended ms2)).
  { unfold encodable in *. apply Forall_app in Henc. apply Henc. }
  rewrite (aput_done fuel ms1 self Hl He1 Henc1) by lia.
  rewrite (aput_done fuel (ms1 ++ ms2) self Hl He)
    by (rewrite ?length_app, ?(appended_app _ _ He1), ?app_assoc; (exact Henc || lia)).
  simpl. split; [reflexivity|]. split; [|reflexivity].
  rewrite aput_done; simpl.
  - rewrite trimmed_app_trimmed, (appended_app _ _ He1), app_assoc. reflexivity.
  - exact Hl.
  - exact He2.
  - unfold encodable in *. apply Forall_app. split; [|exact Henc2].
    destruct (trimmed_minimal (tokenizer self) (token_limit self)
                (current_memory self ++ appended ms1)) as [k [_ [-> _]]].
    apply (encodable_skipn (tokenizer self) k _ Henc1).
  - pose proof (trimmed_length (tokenizer self) (token_limit self)
                  (current_memory self ++ appended ms1)) as Ht.
    rewrite length_app in Ht. pose proof (appended_length ms1). lia.
Qed.

(** X6. With a negative token limit put never returns: when no message
    raises and the tokenizer encodes the entries, the loop condition holds on
    the empty buffer too, so whatever the fuel the call has not ended. *)
Theorem aput_negative_limit_diverges fuel messages self :
  token_limit self < 0 ->
  fst (_aput fuel messages self) <> Done tt /\
  (first_error messages = None ->
   encodable (tokenizer self) (current_memory self ++ appended messages) ->
   fst (_aput fuel messages self) = OutOfFuel).
Proof.
  intros Hl. split; [apply aput_negative_limit; exact Hl|].
  intros He Henc. rewrite aput_unfold, He, trim_encodable by exact Henc.
  apply trim_loop_negative; [exact Hl | exact Henc].
Qed.

(** *** The tokenizer *)

Lemma sum_tokens_same_counts tok1 tok2 mem :
  (forall s, token_count tok1 s = token_count tok2 s) ->
  sum_tokens tok1 mem = sum_tokens tok2 mem.
Proof.
  intros H. induction mem as [|e mem IH].
  - reflexivity.
  - rewrite !sum_tokens_cons, H, IH. reflexivity.
Qed.

Lemma trim_loop_same_counts tok1 tok2 limit fuel :
  (forall s, token_count tok1 s = token_count tok2 s) ->
  forall mem n,
    fst (trim_loop fuel n (mkBlock mem limit tok1)) =
    fst (trim_loop fuel n (mkBlock mem limit tok2)) /\
    current_memory (snd (trim_loop fuel n (mkBlock mem limit tok1))) =
    current_memory (snd (trim_loop fuel n (mkBlock mem limit tok2))).
Proof.
  intros H. induction fuel as [|fuel IH]; intros mem n; block_cbn;
    destruct (n >? limit); block_cbn; auto.
  rewrite !message_length_sum. block_cbn.
  rewrite (sum_tokens_same_counts tok1 tok2 _ H).
  destruct (sum_tokens tok2 (skipn 1 mem)) as [n'|e]; block_cbn; auto.
Qed.

(** X7. Put looks at the tokenizer's output only to count it: two tokenizers
    that give every string as many tokens, or refuse it alike, end every put
    call the same way, with the same buffer. *)
Theorem aput_token_counts_only fuel messages mem limit tok1 tok2 :
  (forall s, token_count tok1 s = token_count tok2 s) ->
  fst (_aput fuel messages (mkBlock mem limit tok1)) =
  fst (_aput fuel messages (mkBlock mem limit tok2)) /\
  current_memory (snd (_aput fuel messages (mkBlock mem limit tok1))) =
  current_memory (snd (_aput fuel messages (mkBlock mem limit tok2))).
Proof.
  intros H. rewrite !aput_unfold.
  destruct (first_error messages) as [e|]; simpl; [auto|].
  unfold trim. rewrite !message_length_sum. block_cbn.
  rewrite (sum_tokens_same_counts tok1 tok2 _ H).
  destruct (sum_tokens tok2 (mem ++ appended messages)) as [n|e]; block_cbn; [|auto].
  apply (trim_loop_same_counts tok1 tok2 limit fuel H).
Qed.

(** *** When the attribute filter raises *)

Lemma getitem_has_key v k x : getitem v k = Ok x -> has_key v k = true.
Proof.
  destruct v; simpl; try discriminate.
  destruct (dict_get d k); [reflexivity | discriminate].
Qed.

Lemma reduce_tool_call_well_formed tool_call reduced :
  reduce_tool_call tool_call = Ok reduced -> well_formed_tool_call tool_call = true.
Proof.
  intros H.
  destruct (reduce_tool_call_ok _ _ H) as [fn [name [args [Hf [Hn [Ha _]]]]]].
  unfold well_formed_tool_call. rewrite Hf.
  rewrite (getitem_has_key _ _ _ Hn), (getitem_has_key _ _ _ Ha). reflexivity.
Qed.

Lemma mapM_reduce_iff records :
  (exists reduced, mapM reduce_tool_call records = Ok reduced) <->
  forallb well_formed_tool_call records = true.
Proof.
  split; [|apply mapM_well_formed].
  intros [reduced H]. apply mapM_Forall2 in H.
  induction H as [|r red records reduced Hr _ IH]; simpl; [reflexivity|].
  rewrite (reduce_tool_call_well_formed _ _ Hr), IH. reflexivity.
Qed.

Lemma kwargs_step_ok_iff acc key val :
  (exists acc', kwargs_step acc (key, val) = Ok acc') <->
  (key = "tool_calls" ->
   exists records, iter val = Ok records /\
                   forallb well_formed_tool_call records = true).
Proof.
  split.
  - intros [acc' H] Hkey.
    destruct (kwargs_step_cases _ _ _ _ H)
      as [[_ [records [reduced [Hi [Hm _]]]]] | [[Hne _] | [Hne _]]];
      [|congruence|congruence].
    exists records. split; [exact Hi|]. apply mapM_reduce_iff. eauto.
  - intros H. unfold kwargs_step.
    destruct (String.eqb_spec key "tool_calls") as [E|E].
    + destruct (H E) as [records [Hi Hwf]]. rewrite Hi. simpl.
      destruct (mapM_well_formed _ Hwf) as [reduced Hm]. rewrite Hm. simpl. eauto.
    + destruct (negb _ && negb _); eauto.
Qed.

Lemma kwargs_loop_ok_iff items : forall acc,
  (exists kwargs, kwargs_loop acc items = Ok kwargs) <->
  (forall val, In ("tool_calls", val) items ->
               exists records, iter val = Ok records /\
                               forallb well_formed_tool_call records = true).
Proof.
  induction items as [|[key val] rest IH]; intros acc; simpl.
  - split; [intros _ val [] | eauto].
  - split.
    + intros [kwargs H] v [Hin|Hin].
      * destruct (kwargs_step acc (key, val)) as [acc'|] eqn:Hs; [|discriminate].
        injection Hin as -> ->.
        apply (proj1 (kwargs_step_ok_iff acc "tool_calls" v)); eauto.
      * destruct (kwargs_step acc (key, val)) as [acc'|] eqn:Hs; [|discriminate].
        simpl in H. apply (proj1 (IH acc')); eauto.
    + intros H.
      destruct (proj2 (kwargs_step_ok_iff acc key val)) as [acc' Hs].
      { intros ->. apply H. left. reflexivity. }
      rewrite Hs. simpl. apply (proj2 (IH acc')). intros v Hin. apply H. right. exact Hin.
Qed.

(** X8. The attribute filter of a message returns exactly when every value
    under the tool-calls key can be iterated and yields only records that are
    mappings with a "function" mapping holding "name" and "arguments"; no
    other attribute can make it raise. *)
Theorem filtered_kwargs_ok_iff message :
  (exists kwargs, filtered_kwargs message = Ok kwargs) <->
  (forall val,
      In ("tool_calls", val) (additional_kwargs message) ->
      exists records,
        iter val = Ok records /\
        Forall (fun record =>
                  exists d fd name args,
                    record = PyDict d /\
                    dict_get d "function" = Some (PyDict fd) /\
                    dict_get fd "name" = Some name /\
                    dict_get fd "arguments" = Some args)
               records).
Proof.
  unfold filtered_kwargs. rewrite kwargs_loop_ok_iff.
  assert (Hrec : forall record,
             well_formed_tool_call record = true <->
             exists d fd name args,
               record = PyDict d /\
               dict_get d "function" = Some (PyDict fd) /\
               dict_get fd "name" = Some name /\
               dict_get fd "arguments" = Some args).
  { intros record. unfold well_formed_tool_call. split.
    - destruct record as [| | | | |l|d]; simpl; try discriminate.
      destruct (dict_get d "function") as [[| | | | |l|fd]|] eqn:Hf; simpl; try discriminate.
      destruct (dict_get fd "name") as [name|] eqn:Hn; simpl; [|discriminate].
      destruct (dict_get fd "arguments") as [args|] eqn:Ha; [|discriminate].
      intros _. exists d, fd, name, args. auto.
    - intros [d [fd [name [args [-> [Hf [Hn Ha]]]]]]]. simpl.
      rewrite Hf. simpl. rewrite Hn, Ha. reflexivity. }
  split; intros H val Hin; destruct (H val Hin) as [records [Hi Hwf]];
    exists records; (split; [exact Hi|]).
  - rewrite forallb_forall in Hwf. apply Forall_forall.
    intros record Hr. apply Hrec. apply Hwf. exact Hr.
  - apply forallb_forall. intros record Hr. apply Hrec.
    rewrite Forall_forall in Hwf. apply Hwf. exact Hr.
Qed.

(** X9. What a malformed tool-call record raises: a record that is no
    mapping, or whose "function" entry is none, raises TypeError; a mapping
    without "function" raises KeyError for "function"; a "function" mapping
    without "name" raises KeyError for "name", also when "arguments" is
    missing too; one with "name" and without "arguments" raises KeyError for
    "arguments". *)
Theorem reduce_tool_call_errors :
  (forall record, (forall d, record <> PyDict d) ->
                  reduce_tool_call record = Err TypeError) /\
  (forall d, dict_get d "function" = None ->
             reduce_tool_call (PyDict d) = Err (KeyError "function")) /\
  (forall d fn, dict_get d "function" = Some fn ->
                (forall fd, fn <> PyDict fd) ->
                reduce_tool_call (PyDict d) = Err TypeError) /\
  (forall d fd, dict_get d "function" = Some (PyDict fd) ->
                dict_get fd "name" = None ->
                reduce_tool_call (PyDict d) = Err (KeyError "name")) /\
  (forall d fd name, dict_get d "function" = Some (PyDict fd) ->
                     dict_get fd "name" = Some name ->
                     dict_get fd "arguments" = None ->
                     reduce_tool_call (PyDict d) = Err (KeyError "arguments")).
Proof.
  unfold reduce_tool_call. repeat split.
  - intros record H. destruct record; try reflexivity. destruct (H d). reflexivity.
  - intros d H. simpl. rewrite H. reflexivity.
  - intros d fn H Hfn. simpl. rewrite H. simpl.
    destruct fn; try reflexivity. destruct (Hfn d0). reflexivity.
  - intros d fd H Hn. simpl. rewrite H. simpl. rewrite Hn. reflexivity.
  - intros d fd name H Hn Ha. simpl. rewrite H. simpl. rewrite Hn. simpl.
    rewrite Ha. reflexivity.
Qed.

Lemma kwargs_loop_app items1 : forall acc items2,
  kwargs_loop acc (items1 ++ items2) =
  (acc' <- kwargs_loop acc items1 ;; kwargs_loop acc' items2).
Proof.
  induction items1 as [|item rest IH]; intros acc items2; simpl; [reflexivity|].
  destruct (kwargs_step acc item) as [acc'|]; simpl; [apply IH | reflexivity].
Qed.

Lemma kwargs_loop_no_tool_calls items acc :
  dict_get items "tool_calls" = None ->
  exists kwargs, kwargs_loop acc items = Ok kwargs.
Proof.
  intros H. apply kwargs_loop_ok_iff. intros val Hin.
  apply dict_get_none in H. destruct H.
  unfold dict_keys. apply (in_map fst) in Hin. exact Hin.
Qed.

Lemma memory_str_tool_calls_error message pre val post e :
  additional_kwargs message = pre ++ ("tool_calls", val) :: post ->
  dict_get pre "tool_calls" = None ->
  (forall acc, kwargs_step acc ("tool_calls", val) = Err e) ->
  memory_str message = Err e.
Proof.
  intros Hattrs Hpre Hstep. unfold memory_str, filtered_kwargs.
  rewrite Hattrs, kwargs_loop_app.
  destruct (kwargs_loop_no_tool_calls pre [] Hpre) as [acc Hacc].
  rewrite Hacc. simpl. rewrite Hstep. reflexivity.
Qed.

Lemma aput_one_raises fuel message e self :
  memory_str message = Err e ->
  _aput fuel [message] self = (Raised e, self).
Proof.
  intros H. rewrite aput_unfold. simpl. rewrite H.
  rewrite app_nil_r, with_memory_same. reflexivity.
Qed.

Lemma mapM_first_error good bad rest e :
  forallb well_formed_tool_call good = true ->
  reduce_tool_call bad = Err e ->
  mapM reduce_tool_call (good ++ bad :: rest) = Err e.
Proof.
  intros Hgood Hbad. induction good as [|r good IH]; simpl.
  - rewrite Hbad. reflexivity.
  - simpl in Hgood. apply andb_prop in Hgood. destruct Hgood as [Hr Hgood].
    destruct (well_formed_tool_call_ok _ Hr) as [fn [name [args [_ [_ [_ Hred]]]]]].
    rewrite Hred, (IH Hgood). reflexivity.
Qed.

(** X10. The records of a tool-calls list are reduced from left to right and
    the first one that fails decides: put raises its error, whatever the
    records and the attributes after it hold, and the buffer of a call with
    that one message is left as it was. *)
Theorem first_bad_tool_call_raises fuel message pre good bad rest post e self :
  additional_kwargs message = pre ++ ("tool_calls", PyList (good ++ bad :: rest)) :: post ->
  dict_get pre "tool_calls" = None ->
  forallb well_formed_tool_call good = true ->
  reduce_tool_call bad = Err e ->
  memory_str message = Err e /\
  _aput fuel [message] self = (Raised e, self).
Proof.
  intros Hattrs Hpre Hgood Hbad.
  assert (Hm : memory_str message = Err e).
  { apply (memory_str_tool_calls_error message pre _ post e Hattrs Hpre).
    intros acc. unfold kwargs_step. simpl.
    rewrite (mapM_first_error good bad rest e Hgood Hbad). reflexivity. }
  split; [exact Hm | apply aput_one_raises; exact Hm].
Qed.

(** X11. A tool-calls attribute that is not a list makes put raise
    TypeError: None, a number, a truth value, a mapping (one record in place
    of a list) or a string; only the empty string and the empty mapping pass,
    as lists without records. *)
Theorem tool_calls_not_a_list fuel message pre val post self :
  additional_kwargs message = pre ++ ("tool_calls", val) :: post ->
  dict_get pre "tool_calls" = None ->
  (forall records, val <> PyList records) ->
  val <> PyStr "" ->
  val <> PyDict [] ->
  memory_str message = Err TypeError /\
  _aput fuel [message] self = (Raised TypeError, self).
Proof.
  intros Hattrs Hpre Hlist Hstr Hdict.
  assert (Hm : memory_str message = Err TypeError).
  { apply (memory_str_tool_calls_error message pre val post TypeError Hattrs Hpre).
    intros acc. unfold kwargs_step. simpl.
    destruct val as [| | | |s|records|d]; try reflexivity.
    - destruct s as [|c s]; [congruence | reflexivity].
    - destruct (Hlist records). reflexivity.
    - destruct d as [|[k v] d]; [congruence | reflexivity]. }
  split; [exact Hm | apply aput_one_raises; exact Hm].
Qed.

(** *** When an entry carries the annotation *)





(** *** What get prints *)

Lemma str_app_assoc (s1 s2 s3 : string) :
  ((s1 ++ s2) ++ s3 = s1 ++ (s2 ++ s3))%string.
Proof. induction s1 as [|c s1 IH]; simpl; [reflexivity | now rewrite IH]. Qed.

Lemma concat_cons_nonempty sep (x : string) l :
  l <> [] -> String.concat sep (x :: l) = (x ++ sep ++ String.concat sep l)%string.
Proof. destruct l; [congruence | reflexivity]. Qed.

Lemma concat_app sep l1 l2 :
  l1 <> [] -> l2 <> [] ->
  String.concat sep (l1 ++ l2) =
  (String.concat sep l1 ++ sep ++ String.concat sep l2)%string.
Proof.
  intros H1 H2. induction l1 as [|x l1 IH]; [congruence|].
  destruct l1 as [|y l1].
  - simpl app. rewrite concat_cons_nonempty by exact H2. reflexivity.
  - change ((x :: y :: l1) ++ l2) with (x :: ((y :: l1) ++ l2)).
    rewrite concat_cons_nonempty by discriminate.
    rewrite IH by discriminate.
    rewrite (concat_cons_nonempty sep x (y :: l1)) by discriminate.
    rewrite !str_app_assoc. reflexivity.
Qed.

Lemma concat_joined_entry sep pre (a b : string) post :
  String.concat sep (pre ++ (a ++ sep ++ b)%string :: post) =
  String.concat sep (pre ++ a :: b :: post).
Proof.
  induction pre as [|x pre IH].
  - simpl app. destruct post as [|p post].
    + reflexivity.
    + rewrite !concat_cons_nonempty by discriminate.
      rewrite !str_app_assoc. reflexivity.
  - change ((x :: pre) ++ ?l) with (x :: (pre ++ l)).
    rewrite !concat_cons_nonempty by (destruct pre; discriminate).
    rewrite IH. reflexivity.
Qed.

(** X13. When a put call evicts nothing, the text get returns afterwards is
    the text it returned before, a newline, and the new entries joined by
    newline (for a buffer and a batch that are not empty). *)
Theorem aget_after_aput fuel messages self n :
  first_error messages = None ->
  sum_tokens (tokenizer self) (current_memory self ++ appended messages) = Ok n ->
  n <= token_limit self ->
  current_memory self <> [] ->
  messages <> [] ->
  exists before,
    fst (_aget None self) = Done before /\
    fst (_aget None (snd (_aput fuel messages self))) =
      Done (before ++ nl ++ String.concat nl (appended messages))%string.
Proof.
  intros He Hn Hfit Hmem Hms.
  exists (String.concat nl (current_memory self)). split; [reflexivity|].
  rewrite aput_unfold, He. unfold trim. rewrite message_length_sum.
  cbn [tokenizer current_memory with_memory]. rewrite Hn.
  rewrite trim_loop_fits by exact Hfit.
  change (Done (String.concat nl (current_memory self ++ appended messages)) =
          Done (String.concat nl (current_memory self) ++ nl ++
                String.concat nl (appended messages))%string).
  f_equal. apply concat_app; [exact Hmem|].
  pose proof (Forall2_length (appended_all _ He)) as Hlen.
  destruct messages as [|m messages]; [congruence|].
  destruct (appended (m :: messages)); [discriminate Hlen | discriminate].
Qed.

(** X14. The text get returns does not keep the entries apart: a message
    with two text segments gives one entry, the two texts joined by newline,
    and a buffer holding it prints as the buffer that holds the two texts as
    two entries. *)
Theorem aget_entry_boundaries r a b pre post self :
  memory_str (mkChatMessage r [TextBlock a; TextBlock b] []) = Ok (a ++ nl ++ b)%string /\
  memory_str (mkChatMessage r [TextBlock a] []) = Ok a /\
  memory_str (mkChatMessage r [TextBlock b] []) = Ok b /\
  fst (_aget None (with_memory self (pre ++ (a ++ nl ++ b)%string :: post))) =
  fst (_aget None (with_memory self (pre ++ a :: b :: post))).
Proof.
  assert (Hone : forall texts,
             memory_str (mkChatMessage r (map TextBlock texts) []) =
             Ok (String.concat nl texts)).
  { intros texts.
    rewrite (memory_str_entry (mkChatMessage r (map TextBlock texts) []) [] ""
               (eq_refl (Ok []))) by congruence.
    simpl blocks. rewrite block_texts_text. unfold spec_entry.
    rewrite str_app_nil. reflexivity. }
  split; [exact (Hone [a; b])|].
  split; [exact (Hone [a])|].
  split; [exact (Hone [b])|].
  change (Done (String.concat nl (pre ++ (a ++ nl ++ b)%string :: post)) =
          Done (String.concat nl (pre ++ a :: b :: post))).
  f_equal. apply concat_joined_entry.
Qed.

(** *** How a call ends, and the limit *)

(** X15. How a put call ends, given fuel for a round per entry: it raises
    the error of the first message that raises, with the entries before it
    appended; otherwise it raises the tokenizer's error if the tokenizer
    refuses an entry, with every new entry appended and nothing trimmed;
    otherwise it returns when the limit is not negative and runs forever when
    it is. *)
Theorem aput_outcome fuel messages self :
  (List.length (current_memory self) + List.length messages <= fuel)%nat ->
  fst (_aput fuel messages self) =
  match first_error messages with
  | Some e => Raised e
  | None =>
      match sum_tokens (tokenizer self) (current_memory self ++ appended messages) with
      | Err e => Raised e
      | Ok _ => if token_limit self <? 0 then OutOfFuel else Done tt
      end
  end /\
  (forall e,
      first_error messages = None ->
      sum_tokens (tokenizer self) (current_memory self ++ appended messages) = Err e ->
      _aput fuel messages self =
        (Raised e, with_memory self (current_memory self ++ appended messages))).
Proof.
  intros Hf. split.
  - destruct (first_error messages) as [e|] eqn:He.
    + rewrite aput_unfold, He. reflexivity.
    + destruct (sum_tokens (tokenizer self) (current_memory self ++ appended messages))
        as [n|e] eqn:Hsum.
      * apply sum_tokens_ok in Hsum. destruct Hsum as [Henc _].
        destruct (Z.ltb_spec (token_limit self) 0) as [Hl|Hl].
        -- rewrite aput_unfold, He, trim_encodable by exact Henc.
           apply trim_loop_negative; [exact Hl | exact Henc].
        -- rewrite (aput_done fuel messages self Hl He Henc Hf). reflexivity.
      * rewrite aput_unfold, He, (trim_raises _ _ e); [reflexivity | exact Hsum].
  - intros e He Hsum. rewrite aput_unfold, He. apply trim_raises. exact Hsum.
Qed.

(** X16. A larger token limit never loses entries: of two blocks that differ
    in the limit only, the one with the smaller limit keeps, after the same
    put call, a suffix of what the other keeps. *)
Theorem aput_limit_monotone fuel1 fuel2 messages mem limit1 limit2 tok self1 self2 :
  limit1 <= limit2 ->
  _aput fuel1 messages (mkBlock mem limit1 tok) = (Done tt, self1) ->
  _aput fuel2 messages (mkBlock mem limit2 tok) = (Done tt, self2) ->
  exists k, current_memory self1 = skipn k (current_memory self2).
Proof.
  intros Hle H1 H2.
  destruct (aput_returns fuel1 messages (mkBlock mem limit1 tok)) as [_ [_ Hs1]];
    [rewrite H1; reflexivity|].
  destruct (aput_returns fuel2 messages (mkBlock mem limit2 tok)) as [_ [_ Hs2]];
    [rewrite H2; reflexivity|].
  rewrite H1 in Hs1. rewrite H2 in Hs2. simpl in Hs1, Hs2. subst self1 self2. simpl.
  rewrite <- (trimmed_lower_limit tok limit1 limit2 _ Hle).
  destruct (trimmed_minimal tok limit1 (trimmed tok limit2 (mem ++ appended messages)))
    as [k [_ [Hk _]]].
  exists k. exact Hk.
Qed.

End Block.

(** * The block on sample data *)

(** The samples are printed with [sample_str]. *)

Lemma word_tokenizer_encodable mem : encodable word_tokenizer mem.
Proof.
  unfold encodable. apply Forall_forall. intros entry _. eexists. reflexivity.
Qed.

(** ** The scenarios of the specification *)

Example scenario_four_messages :
  fst (_aget None (snd (_aput sample_str 4 conversation roomy_block))) =
  Done ("Hello! My name is Megan" ++ nl ++ "Hello! How can I help you?" ++ nl ++
        "What is the capital of France?" ++ nl ++
        "The capital of France is Paris")%string.
Proof. reflexivity. Qed.

Example scenario_tight_limit :
  fst (_aget None (snd (_aput sample_str 5 five_turns tight_block))) =
  Done ("seven eight" ++ nl ++ "nine")%string.
Proof. reflexivity. Qed.

Example scenario_attribute_filtering :
  memory_str sample_str tool_message =
  Ok (nl ++ "({'tool_calls': [{'name': 'multiply', 'args': '" ++ multiply_args ++ "'}]})")%string.
Proof. reflexivity. Qed.

Example scenario_special_token :
  _aput sample_str 1 [text_message USER endoftext] strict_block =
  (Raised ValueError, with_memory strict_block [endoftext]).
Proof. reflexivity. Qed.

Example scenario_huge_int :
  memory_str sample_str huge_int_message = Err ValueError.
Proof. vm_compute. reflexivity. Qed.

Example zero_limit_get :
  fst (_aget None (snd (_aput sample_str 2 [empty_message; empty_message] zero_block)))
  = Done nl.
Proof. reflexivity. Qed.

(** ** The claims on sample data *)

Lemma aput_within_budget_witness :
  0 <= token_limit tight_block /\
  (Forall (fun r => fst r = Done tt ->
                    exists n, message_length (snd r) = Ok n /\ n <= token_limit tight_block)
          (aput_trace sample_str 9 [five_turns; conversation] tight_block) /\
   ((List.length (current_memory tight_block) +
     List.length (List.concat [five_turns; conversation]) <= 9)%nat ->
    Forall (fun r => fst r <> OutOfFuel)
           (aput_trace sample_str 9 [five_turns; conversation] tight_block))).
Proof.
  split; [simpl; lia|].
  apply (aput_within_budget sample_str 9 [five_turns; conversation] tight_block).
  simpl; lia.
Defined.

(** C2, as the specification states it, fails: with a limit of 0 the one
    entry of a call is over the limit and is evicted like any other. *)
Lemma newest_entry_not_spared :
  ~ (forall fuel messages message entry n self self',
        memory_str sample_str message = Ok entry ->
        _aput sample_str fuel (messages ++ [message]) self = (Done tt, self') ->
        token_count (tokenizer self) entry = Ok n ->
        n > token_limit self ->
        current_memory self' = [entry]).
Proof.
  intros H.
  specialize (H 1%nat [] (text_message USER "hello") "hello" 1 zero_block zero_block).
  simpl in H. discriminate H; reflexivity.
Qed.

Lemma aput_newest_entry_witness :
  _aput sample_str 1 [text_message USER "hello"] zero_block = (Done tt, zero_block) /\
  current_memory zero_block ++ appended sample_str [text_message USER "hello"]
    = [] ++ ["hello"] /\
  exists n,
    token_count (tokenizer zero_block) "hello" = Ok n /\
    (n > token_limit zero_block -> current_memory zero_block = []) /\
    (n <= token_limit zero_block ->
     exists rest, current_memory zero_block = rest ++ ["hello"]).
Proof.
  split; [reflexivity|]. split; [reflexivity|].
  apply (aput_newest_entry sample_str 1 [text_message USER "hello"]
           zero_block zero_block [] "hello");
    reflexivity.
Defined.

(** C3, as the specification states it, fails: with a limit of 0, entries
    without tokens fit the limit and stay, and the text read back is not
    empty. *)
Lemma zero_limit_keeps_empty_entries :
  ~ (forall messages self,
        token_limit self <= 0 ->
        exists fuel self',
          _aput sample_str fuel messages self = (Done tt, self') /\
          current_memory self' = [] /\
          fst (_aget None self') = Done "").
Proof.
  intros H.
  destruct (H [empty_message; empty_message] zero_block) as [fuel [self' [Hrun [Hmem _]]]].
  { simpl; lia. }
  destruct fuel; simpl in Hrun; inversion Hrun; subst self'; discriminate Hmem.
Qed.

Lemma aput_zero_limit_witness :
  token_limit zero_block = 0 /\
  first_error sample_str five_turns = None /\
  encodable (tokenizer zero_block)
            (current_memory zero_block ++ appended sample_str five_turns) /\
  (List.length (current_memory zero_block) + List.length five_turns <= 5)%nat /\
  exists self',
    _aput sample_str 5 five_turns zero_block = (Done tt, self') /\
    Forall (fun entry => token_count (tokenizer zero_block) entry = Ok 0)
           (current_memory self') /\
    (Forall (fun entry => exists n, token_count (tokenizer zero_block) entry = Ok n /\ n > 0)
            (current_memory zero_block ++ appended sample_str five_turns) ->
     current_memory self' = [] /\ _aget None self' = (Done "", self')).
Proof.
  split; [reflexivity|]. split; [reflexivity|].
  split; [apply word_tokenizer_encodable|]. split; [simpl; lia|].
  apply (aput_zero_limit sample_str 5 five_turns zero_block);
    [reflexivity | reflexivity | apply word_tokenizer_encodable | simpl; lia].
Defined.

(** C8, as the specification states it, fails on a buffer that is over its
    limit when the call starts: the trimming loop runs all the same. *)
Lemma empty_put_trims :
  ~ (forall fuel self self',
        _aput sample_str fuel [] self = (Done tt, self') ->
        current_memory self' = current_memory self /\
        message_length self' = message_length self).
Proof.
  intros H.
  destruct (H 1%nat (mkBlock ["hello"] 0 word_tokenizer) (mkBlock [] 0 word_tokenizer))
    as [Hmem _]; [reflexivity|].
  discriminate Hmem.
Qed.

Lemma aput_empty_noop_witness :
  let self := mkBlock ["seven eight"; "nine"] 3 word_tokenizer in
  message_length self = Ok 3 /\
  3 <= token_limit self /\
  _aput sample_str 0 [] self = (Done tt, self) /\
  current_memory (snd (_aput sample_str 0 [] self)) = current_memory self /\
  message_length (snd (_aput sample_str 0 [] self)) = message_length self.
Proof.
  intros self. split; [reflexivity|]. split; [simpl; lia|].
  apply (aput_empty_noop sample_str 0 self 3); [reflexivity | simpl; lia].
Defined.

Lemma filtered_kwargs_spec_witness :
  NoDup (dict_keys (additional_kwargs tool_message)) /\
  filtered_kwargs tool_message =
    Ok [("tool_calls",
         PyList [PyDict [("name", PyStr "multiply"); ("args", PyStr multiply_args)]])] /\
  dict_get [("tool_calls",
             PyList [PyDict [("name", PyStr "multiply"); ("args", PyStr multiply_args)]])]
           "session_id" = None.
Proof.
  assert (Hnd : NoDup (dict_keys (additional_kwargs tool_message))).
  { simpl. repeat constructor; simpl; intuition discriminate. }
  split; [exact Hnd|]. split; [reflexivity|].
  apply (proj2 (filtered_kwargs_spec tool_message Hnd)). reflexivity.
Defined.

(** C10, as stated, fails: the records of the message are well
    formed, and the call raises all the same, as the tokenizer refuses the
    text of the entry. *)
Lemma well_formed_tool_calls_can_raise :
  ~ (forall messages self,
        Forall (fun message =>
                  forall records,
                    dict_get (additional_kwargs message) "tool_calls"
                      = Some (PyList records) ->
                    forallb well_formed_tool_call records = true)
               messages ->
        exists fuel, fst (_aput sample_str fuel messages self) = Done tt).
Proof.
  intros H.
  destruct (H [special_token_message] strict_block) as [fuel Hrun].
  - constructor; [|constructor]. intros records Hrec.
    injection Hrec as <-. reflexivity.
  - discriminate Hrun.
Qed.

Lemma aput_tool_calls_safe_witness :
  Forall (fun message => well_formed_kwargs (additional_kwargs message) = true)
         [tool_message] /\
  Forall (fun message => exists kwargs, filtered_kwargs message = Ok kwargs)
         [tool_message] /\
  fst (_aput sample_str 1 [tool_message] roomy_block) = Done tt.
Proof.
  assert (Hwf : Forall (fun message => well_formed_kwargs (additional_kwargs message) = true)
                       [tool_message]).
  { constructor; [reflexivity | constructor]. }
  split; [exact Hwf|].
  destruct (aput_tool_calls_safe sample_str 1 [tool_message] roomy_block Hwf)
    as [_ [Hfilter Hput]].
  split; [exact Hfilter|].
  destruct Hput as [_ Hrun].
  - constructor; [|constructor]. intros kwargs Hk _.
    injection Hk as <-. eexists. reflexivity.
  - apply Hrun; [apply word_tokenizer_encodable | simpl; lia | simpl; lia].
Defined.

Lemma put_message_entry_witness :
  let kwargs :=
    [("tool_calls",
      PyList [PyDict [("name", PyStr "multiply"); ("args", PyStr multiply_args)]])] in
  filtered_kwargs tool_message = Ok kwargs /\
  put_message sample_str tool_message roomy_block =
    (Done tt,
     with_memory roomy_block
       [(nl ++ "({'tool_calls': [{'name': 'multiply', 'args': '" ++ multiply_args ++ "'}]})")%string]).
Proof.
  intros kwargs. split; [reflexivity|].
  apply (proj1 (put_message_entry sample_str tool_message kwargs roomy_block eq_refl)
           ("{'tool_calls': [{'name': 'multiply', 'args': '" ++ multiply_args ++ "'}]}")%string).
  intros _. reflexivity.
Defined.

Lemma aput_order_preserved_witness :
  exists k,
    current_memory (aput_all sample_str 9 [five_turns; two_more_turns] tight_block) =
      skipn k (current_memory tight_block ++
               flat_map (appended sample_str) [five_turns; two_more_turns]).
Proof.
  destruct (aput_order_preserved sample_str 9 [five_turns; two_more_turns] tight_block)
    as [k [H _]].
  exists k. exact H.
Defined.

Lemma aput_role_independent_witness :
  role (text_message USER "hello") <> role (text_message TOOL "hello") /\
  _aput sample_str 2 ([empty_message] ++ text_message USER "hello" :: [tool_message])
        roomy_block =
  _aput sample_str 2 ([empty_message] ++ text_message TOOL "hello" :: [tool_message])
        roomy_block.
Proof.
  split; [discriminate|].
  apply (aput_role_independent sample_str 2 [empty_message] [tool_message]
           (text_message USER "hello") (text_message TOOL "hello") roomy_block);
    reflexivity.
Defined.

(** ** The further properties on sample data *)

Lemma aput_raise_partial_witness :
  first_error sample_str conversation = None /\
  memory_str sample_str broken_message = Err (KeyError "function") /\
  _aput sample_str 0 (conversation ++ broken_message :: five_turns) zero_block =
    (Raised (KeyError "function"),
     with_memory zero_block
       (current_memory zero_block ++ appended sample_str conversation)).
Proof.
  split; [reflexivity|]. split; [reflexivity|].
  apply (aput_raise_partial sample_str 0 conversation broken_message five_turns
           (KeyError "function") zero_block); reflexivity.
Defined.

Lemma aput_evicts_least_witness :
  _aput sample_str 5 five_turns tight_block =
    (Done tt, with_memory tight_block ["seven eight"; "nine"]) /\
  exists k,
    current_memory (with_memory tight_block ["seven eight"; "nine"]) =
      skipn k (current_memory tight_block ++ appended sample_str five_turns) /\
    forall k', (k' < k)%nat ->
      exists n,
        sum_tokens (tokenizer tight_block)
                   (skipn k' (current_memory tight_block ++
                              appended sample_str five_turns)) = Ok n /\
        n > token_limit tight_block.
Proof.
  split; [reflexivity|].
  apply (aput_evicts_least sample_str 5 five_turns tight_block
           (with_memory tight_block ["seven eight"; "nine"])).
  reflexivity.
Defined.

Lemma aput_fits_keeps_all_witness :
  first_error sample_str conversation = None /\
  sum_tokens (tokenizer roomy_block)
             (current_memory roomy_block ++ appended sample_str conversation)
    = Ok 23 /\
  23 <= token_limit roomy_block /\
  _aput sample_str 0 conversation roomy_block =
    (Done tt,
     with_memory roomy_block
       (current_memory roomy_block ++ appended sample_str conversation)) /\
  List.length (appended sample_str conversation) = List.length conversation.
Proof.
  split; [reflexivity|]. split; [reflexivity|]. split; [simpl; lia|].
  apply (aput_fits_keeps_all sample_str 0 conversation roomy_block 23);
    [reflexivity | reflexivity | simpl; lia].
Defined.

Lemma aput_then_empty_witness :
  _aput sample_str 5 five_turns tight_block =
    (Done tt, with_memory tight_block ["seven eight"; "nine"]) /\
  _aput sample_str 0 [] (with_memory tight_block ["seven eight"; "nine"]) =
    (Done tt, with_memory tight_block ["seven eight"; "nine"]).
Proof.
  split; [reflexivity|].
  apply (aput_then_empty sample_str 5 0 five_turns tight_block). reflexivity.
Defined.

Lemma aput_split_batch_witness :
  0 <= token_limit tight_block /\
  first_error sample_str (five_turns ++ two_more_turns) = None /\
  (List.length (current_memory tight_block) + List.length (five_turns ++ two_more_turns)
   <= 7)%nat /\
  current_memory (snd (_aput sample_str 7 (five_turns ++ two_more_turns) tight_block))
    = ["ten eleven"; "twelve"] /\
  _aput sample_str 7 two_more_turns (snd (_aput sample_str 7 five_turns tight_block)) =
  _aput sample_str 7 (five_turns ++ two_more_turns) tight_block.
Proof.
  split; [simpl; lia|]. split; [reflexivity|]. split; [simpl; lia|].
  split; [reflexivity|].
  apply (aput_split_batch sample_str 7 five_turns two_more_turns tight_block);
    [simpl; lia | reflexivity | apply word_tokenizer_encodable | simpl; lia].
Defined.

Lemma aput_negative_limit_diverges_witness :
  token_limit (mkBlock ["nine"] (-1) word_tokenizer) < 0 /\
  fst (_aput sample_str 100 five_turns (mkBlock ["nine"] (-1) word_tokenizer))
    = OutOfFuel.
Proof.
  split; [reflexivity|].
  apply (aput_negative_limit_diverges sample_str 100 five_turns
           (mkBlock ["nine"] (-1) word_tokenizer));
    [reflexivity | reflexivity | apply word_tokenizer_encodable].
Defined.

Lemma aput_token_counts_only_witness :
  (forall s, token_count word_tokenizer s = token_count blind_tokenizer s) /\
  current_memory (snd (_aput sample_str 5 five_turns (mkBlock [] 3 word_tokenizer))) =
  current_memory (snd (_aput sample_str 5 five_turns (mkBlock [] 3 blind_tokenizer))).
Proof.
  assert (H : forall s, token_count word_tokenizer s = token_count blind_tokenizer s).
  { intros s. unfold token_count. simpl. rewrite !length_map. reflexivity. }
  split; [exact H|].
  apply (aput_token_counts_only sample_str 5 five_turns [] 3
           word_tokenizer blind_tokenizer H).
Defined.

Lemma reduce_tool_call_errors_witness :
  reduce_tool_call broken_record = Err (KeyError "function").
Proof.
  apply (proj1 (proj2 reduce_tool_call_errors)). reflexivity.
Defined.

Lemma first_bad_tool_call_raises_witness :
  additional_kwargs broken_message =
    [("note", PyStr "n")] ++
    ("tool_calls", PyList ([tool_call_record "add" "{}"] ++ broken_record :: []))
    :: [("session_id", PyStr "x")] /\
  memory_str sample_str broken_message = Err (KeyError "function") /\
  _aput sample_str 3 [broken_message] roomy_block =
    (Raised (KeyError "function"), roomy_block).
Proof.
  split; [reflexivity|].
  apply (first_bad_tool_call_raises sample_str 3 broken_message [("note", PyStr "n")]
           [tool_call_record "add" "{}"] broken_record [] [("session_id", PyStr "x")]
           (KeyError "function") roomy_block); reflexivity.
Defined.

Lemma tool_calls_not_a_list_witness :
  additional_kwargs single_record_message =
    [] ++ ("tool_calls", tool_call_record "add" "{}") :: [] /\
  _aput sample_str 1 [single_record_message] roomy_block =
    (Raised TypeError, roomy_block).
Proof.
  split; [reflexivity|].
  apply (tool_calls_not_a_list sample_str 1 single_record_message []
           (tool_call_record "add" "{}") [] roomy_block);
    try reflexivity; discriminate.
Defined.


Lemma aget_after_aput_witness :
  let self := mkBlock ["seven eight"; "nine"] 60000 word_tokenizer in
  first_error sample_str conversation = None /\
  sum_tokens (tokenizer self)
             (current_memory self ++ appended sample_str conversation) = Ok 26 /\
  exists before,
    fst (_aget None self) = Done before /\
    fst (_aget None (snd (_aput sample_str 0 conversation self))) =
      Done (before ++ nl ++ String.concat nl (appended sample_str conversation))%string.
Proof.
  intros self. split; [reflexivity|]. split; [reflexivity|].
  apply (aget_after_aput sample_str 0 conversation self 26);
    [reflexivity | reflexivity | simpl; lia | discriminate | discriminate].
Defined.

Lemma aput_outcome_witness :
  (List.length (current_memory strict_block) +
   List.length (five_turns ++ [special_token_message]) <= 6)%nat /\
  first_error sample_str (five_turns ++ [special_token_message]) = None /\
  fst (_aput sample_str 6 (five_turns ++ [special_token_message]) strict_block)
    = Raised ValueError.
Proof.
  assert (Hf : (List.length (current_memory strict_block) +
                List.length (five_turns ++ [special_token_message]) <= 6)%nat).
  { simpl; lia. }
  split; [exact Hf|]. split; [reflexivity|].
  destruct (aput_outcome sample_str 6 (five_turns ++ [special_token_message])
              strict_block Hf) as [Hfst _].
  rewrite Hfst. reflexivity.
Defined.

Lemma aput_limit_monotone_witness :
  3 <= 5 /\
  exists k,
    current_memory (mkBlock ["seven eight"; "nine"] 3 word_tokenizer) =
    skipn k (current_memory (mkBlock ["six"; "seven eight"; "nine"] 5 word_tokenizer)).
Proof.
  split; [lia|].
  apply (aput_limit_monotone sample_str 5 5 five_turns [] 3 5 word_tokenizer);
    [lia | reflexivity | reflexivity].
Defined.
